(** * Option_pricer.py: the Black-Scholes-Merton pricer and its input shell

    A shallow embedding of [src/Option_pricer.py].

    Conventions of the model.
    - The shell, the branch on [T <= 0] and the expired prices are modelled
      with a Python [float] read as a real number of [R]
      ([black_scholes_merton], [get_user_input], [main]): there the
      program compares numbers and subtracts once, and calls no library.
    - Where rounding, underflow and overflow decide what the program does,
      the pricer is modelled on binary64 doubles
      ([black_scholes_merton64]), with the functions it takes from libm
      and scipy as the fields of a [Library].
    - A raised exception is the [Raise] constructor of [Result]; the
      exceptions the program can meet are those of [PyError].
    - In the reading over [R], [scipy.stats.norm.cdf] is the standard
      normal distribution function, [1/2] plus the integral of
      [exp (- t^2 / 2) / sqrt (2 * PI)] from [0].
    - The console is a [World]: the lines still to be read and what was
      written so far. *)

From Stdlib Require Import Floats.
From Stdlib Require Import Reals Lra Lia List String Ascii ZArith.
Import ListNotations.
Open Scope R_scope.
Set Warnings "-inexact-float".

(* ================================================================= *)
(** * Part I: the program *)

(** ** Python values and exceptions *)

Inductive PyError : Type :=
| ZeroDivisionError   (* float division by zero *)
| ValueError          (* math domain error; a string that is no number *)
| EOFError            (* input() at the end of the input *)
| OverflowError.      (* math range error; a power out of range *)

Inductive Result (A : Type) : Type :=
| Ok (value : A)
| Raise (error : PyError).
Arguments Ok {A} value.
Arguments Raise {A} error.

Definition result_bind {A B : Type} (m : Result A) (k : A -> Result B) : Result B :=
  match m with
  | Ok a => k a
  | Raise e => Raise e
  end.

Declare Scope result_scope.
Delimit Scope result_scope with result.
Notation "x <- m ;; k" := (result_bind m (fun x => k))
  (at level 61, m at next level, right associativity) : result_scope.

(** ** The arithmetic of the pricer, a float read as a real

    Over [R] nothing rounds, underflows or overflows: these four say which
    arguments Python refuses, and are used where that is all that
    matters. *)

(** [x / y] on floats. *)
Definition py_div (x y : R) : Result R :=
  if Req_dec_T y 0 then Raise ZeroDivisionError else Ok (x / y).

(** [math.log(x)]. *)
Definition math_log (x : R) : Result R :=
  if Rle_dec x 0 then Raise ValueError else Ok (ln x).

(** [math.sqrt(x)]. *)
Definition math_sqrt (x : R) : Result R :=
  if Rlt_dec x 0 then Raise ValueError else Ok (sqrt x).

(** [math.exp(x)], which over [R] has no range to leave. *)
Definition math_exp (x : R) : R := exp x.

(** ** scipy.stats.norm.cdf *)

Lemma deriv_value (f : R -> R) (x l l' : R) :
  derivable_pt_lim f x l -> l = l' -> derivable_pt_lim f x l'.
Proof. intros H <-. exact H. Qed.

Section Integral.
Variable f : R -> R.
Hypothesis f_cont : forall x, continuity_pt f x.

Definition integrable_of_cont (a b : R) : Riemann_integrable f a b :=
  match Rle_dec a b with
  | left Hab => continuity_implies_RiemannInt Hab (fun x _ => f_cont x)
  | right Hba =>
      RiemannInt_P1
        (continuity_implies_RiemannInt (Rlt_le _ _ (Rnot_le_lt _ _ Hba))
           (fun x _ => f_cont x))
  end.

(** The Riemann integral of the continuous [f] from [a] to [b], in either
    order of the bounds. *)
Definition integral (a b : R) : R := RiemannInt (integrable_of_cont a b).
End Integral.

Definition gauss (t : R) : R := exp (- (t * t / 2)).

Lemma gauss_deriv t : derivable_pt_lim gauss t (- t * gauss t).
Proof.
  unfold gauss.
  assert (H : derivable_pt_lim (fun u => - (u * u / 2)) t (- t)).
  { pose proof (derivable_pt_lim_opp _ t _
                  (derivable_pt_lim_mult _ _ t _ _
                     (derivable_pt_lim_mult _ _ t _ _
                        (derivable_pt_lim_id t) (derivable_pt_lim_id t))
                     (derivable_pt_lim_const (/ 2) t))) as H0.
    apply (deriv_value _ _ _ _ H0). unfold id, fct_cte, mult_fct. field. }
  replace (- t * exp (- (t * t / 2))) with (exp (- (t * t / 2)) * - t) by ring.
  apply (derivable_pt_lim_comp (fun u => - (u * u / 2)) exp t (- t) _ H).
  apply derivable_pt_lim_exp.
Qed.

Lemma gauss_continuous t : continuity_pt gauss t.
Proof.
  apply derivable_continuous_pt.
  exists (- t * gauss t). apply gauss_deriv.
Qed.

(** [gauss_area x] is the integral of [exp (- t^2 / 2)] for [t] from [0]
    to [x] (negative when [x < 0]). *)
Definition gauss_area (x : R) : R := integral gauss gauss_continuous 0 x.

(** Density of the standard normal distribution. *)
Definition norm_pdf (x : R) : R := gauss x / sqrt (2 * PI).

(** [scipy.stats.norm.cdf] over [R]: the mass of the standard normal
    distribution below [x].  Half of the mass lies below [0]; the mass between [0] and
    [x] is the integral of the density. *)
Definition norm_cdf (x : R) : R := / 2 + gauss_area x / sqrt (2 * PI).

(** ** black_scholes_merton *)

(** Lines 23-29: the prices at or after expiry. *)
Definition intrinsic_values (S K : R) : R * R :=
  if Rgt_dec S K then
    let call_price := S - K in
    let put_price := 0.0 in
    (call_price, put_price)
  else
    let call_price := 0.0 in
    let put_price := K - S in
    (call_price, put_price).

(** Lines 31-49 over [R]: the closed formulas, with the operations of
    line 32 in the order Python evaluates them. *)
Definition standard_prices (S K T r sigma : R) : Result (R * R) :=
  (q <- py_div S K ;;
   l <- math_log q ;;
   root <- math_sqrt T ;;
   d1 <- py_div (l + (r + 0.5 * sigma ^ 2) * T) (sigma * root) ;;
   root' <- math_sqrt T ;;
   let d2 := d1 - sigma * root' in
   let Nd1 := norm_cdf d1 in
   let Nd2 := norm_cdf d2 in
   let N_neg_d1 := norm_cdf (- d1) in
   let N_neg_d2 := norm_cdf (- d2) in
   let call_price := S * Nd1 - K * math_exp (- r * T) * Nd2 in
   let put_price := K * math_exp (- r * T) * N_neg_d2 - S * N_neg_d1 in
   Ok (call_price, put_price))%result.

Definition black_scholes_merton (S K T r sigma : R) : Result (R * R) :=
  if Rle_dec T 0 then Ok (intrinsic_values S K)
  else standard_prices S K T r sigma.

(** ** black_scholes_merton on doubles *)

(** What the pricer takes from libm and scipy: [math.log] on an argument
    that passed its domain test, [math.exp], the power operator and
    [norm.cdf].  The first three may raise. *)
Record Library : Type := mkLibrary {
  libm_log : PrimFloat.float -> Result PrimFloat.float;
  libm_exp : PrimFloat.float -> Result PrimFloat.float;
  libm_pow : PrimFloat.float -> PrimFloat.float -> Result PrimFloat.float;
  scipy_norm_cdf : PrimFloat.float -> PrimFloat.float
}.

(** [x / y] on doubles. *)
Definition py_div64 (x y : PrimFloat.float) : Result PrimFloat.float :=
  if (y =? 0)%float then Raise ZeroDivisionError else Ok (x / y)%float.

(** [math.log(x)]: the domain test is Python's own, the value libm's. *)
Definition math_log64 (lib : Library) (x : PrimFloat.float) :
    Result PrimFloat.float :=
  if (x <=? 0)%float then Raise ValueError else libm_log lib x.

(** [math.sqrt(x)]: correctly rounded on doubles. *)
Definition math_sqrt64 (x : PrimFloat.float) : Result PrimFloat.float :=
  if (x <? 0)%float then Raise ValueError else Ok (PrimFloat.sqrt x).

(** Lines 23-29; [S > K] is [K < S]. *)
Definition intrinsic_values64 (S K : PrimFloat.float) :
    PrimFloat.float * PrimFloat.float :=
  if (K <? S)%float then
    let call_price := (S - K)%float in
    let put_price := 0%float in
    (call_price, put_price)
  else
    let call_price := 0%float in
    let put_price := (K - S)%float in
    (call_price, put_price).

(** Lines 31-49, every operation rounded as Python rounds it and in the
    order Python evaluates it. *)
Definition standard_prices64 (lib : Library) (S K T r sigma : PrimFloat.float) :
    Result (PrimFloat.float * PrimFloat.float) :=
  (q <- py_div64 S K ;;
   l <- math_log64 lib q ;;
   sq <- libm_pow lib sigma 2%float ;;
   root <- math_sqrt64 T ;;
   d1 <- py_div64 (l + (r + 0.5 * sq) * T)%float (sigma * root)%float ;;
   root' <- math_sqrt64 T ;;
   let d2 := (d1 - sigma * root')%float in
   let Nd1 := scipy_norm_cdf lib d1 in
   let Nd2 := scipy_norm_cdf lib d2 in
   let N_neg_d1 := scipy_norm_cdf lib (- d1)%float in
   let N_neg_d2 := scipy_norm_cdf lib (- d2)%float in
   disc <- libm_exp lib (- r * T)%float ;;
   let call_price := (S * Nd1 - K * disc * Nd2)%float in
   disc' <- libm_exp lib (- r * T)%float ;;
   let put_price := (K * disc' * N_neg_d2 - S * N_neg_d1)%float in
   Ok (call_price, put_price))%result.

Definition black_scholes_merton64 (lib : Library)
    (S K T r sigma : PrimFloat.float) :
    Result (PrimFloat.float * PrimFloat.float) :=
  if (T <=? 0)%float then Ok (intrinsic_values64 S K)
  else standard_prices64 lib S K T r sigma.

(** ** The console *)

(** What the program writes: the prompt of an [input], a fixed line, or a
    line with a formatted number in it. *)
Inductive Output : Type :=
| Prompt (text : string)
| Text (line : string)
| Repr (before : string) (x : R) (after : string)
| Fixed (before : string) (x : R) (digits : nat) (after : string).

Record World : Type := mkWorld { stdin : list string; stdout : list Output }.

Definition IO (A : Type) : Type := World -> Result A * World.

Definition io_ret {A : Type} (a : A) : IO A := fun w => (Ok a, w).

Definition io_bind {A B : Type} (m : IO A) (k : A -> IO B) : IO B :=
  fun w =>
    match m w with
    | (Ok a, w') => k a w'
    | (Raise e, w') => (Raise e, w')
    end.

Definition io_lift {A : Type} (m : Result A) : IO A := fun w => (m, w).

Definition print (o : Output) : IO unit :=
  fun w => (Ok tt, mkWorld (stdin w) (stdout w ++ [o])).

Declare Scope io_scope.
Delimit Scope io_scope with io.
Notation "x <- m ;; k" := (io_bind m (fun x => k))
  (at level 61, m at next level, right associativity) : io_scope.
Notation "m ;; k" := (io_bind m (fun _ => k))
  (at level 61, right associativity) : io_scope.

(** ** get_user_input *)

Definition msg_at_least (min_val : R) : Output :=
  Repr "Error: Value must be at least " min_val ".".

Definition msg_invalid : Output :=
  Text "Error: Invalid input. Please enter a number.".

(** The [while True] loop: every turn writes the prompt and reads one
    line, so the loop is a recursion on the lines still to be read.
    [value_type] raising [ValueError] is caught; any other exception
    leaves the function, as does the [EOFError] of [input]. *)
Fixpoint get_user_input_loop (value_type : string -> Result R)
    (prompt : string) (min_val : R)
    (lines : list string) (out : list Output) : Result R * World :=
  match lines with
  | [] => (Raise EOFError, mkWorld [] (out ++ [Prompt prompt]))
  | line :: rest =>
      match value_type line with
      | Ok value =>
          if Rlt_dec value min_val then
            get_user_input_loop value_type prompt min_val rest
              (out ++ [Prompt prompt; msg_at_least min_val])
          else (Ok value, mkWorld rest (out ++ [Prompt prompt]))
      | Raise ValueError =>
          get_user_input_loop value_type prompt min_val rest
            (out ++ [Prompt prompt; msg_invalid])
      | Raise e => (Raise e, mkWorld rest (out ++ [Prompt prompt]))
      end
  end.

Definition get_user_input (value_type : string -> Result R)
    (prompt : string) (min_val : R) : IO R :=
  fun w => get_user_input_loop value_type prompt min_val (stdin w) (stdout w).

(** ** main *)

Definition newline : string := String "010"%char EmptyString.

(** [s * n] on strings. *)
Fixpoint str_repeat (s : string) (n : nat) : string :=
  match n with
  | O => EmptyString
  | Datatypes.S n' => (s ++ str_repeat s n')%string
  end.

Section Shell.
(** Python's [float] on a line of text: a number, or [None] where Python
    raises [ValueError]. *)
Variable float : string -> option R.

Definition py_float (s : string) : Result R :=
  match float s with
  | Some x => Ok x
  | None => Raise ValueError
  end.

(** Lines 84-95. *)
Definition main_report (S K T r sigma call_price put_price : R) : IO unit :=
  (print (Text (newline ++ "--- Results ---")) ;;
   print (Text "Input Parameters:") ;;
   print (Fixed "  Spot Price (S):      $" S 2 EmptyString) ;;
   print (Fixed "  Strike Price (K):    $" K 2 EmptyString) ;;
   print (Fixed "  Time (T):            " T 4 " years") ;;
   print (Fixed "  Risk-Free Rate (r):  " r 4 EmptyString) ;;
   print (Fixed "  Volatility (sigma):  " sigma 4 EmptyString) ;;
   print (Text (str_repeat "-" 25)) ;;
   print (Fixed "European Call Price: $" call_price 4 EmptyString) ;;
   print (Fixed "European Put Price:  $" put_price 4 EmptyString) ;;
   print (Text (str_repeat "-" 25)))%io.

(** [main], with the pricing routine it calls as a parameter. *)
Definition main_with (pricer : R -> R -> R -> R -> R -> Result (R * R)) : IO unit :=
  (print (Text (newline ++ "--- Black-Scholes-Merton European Option Pricer ---")) ;;
   print (Text "Please enter the required parameters.") ;;
   S <- get_user_input py_float "Current Stock Price (S): $" 0.0 ;;
   K <- get_user_input py_float "Option Strike Price (K): $" 0.0 ;;
   T <- get_user_input py_float
          "Time to Expiration (T, in years, e.g., 0.5): " 0.0001 ;;
   r <- get_user_input py_float
          "Risk-Free Rate (r, decimal, e.g., 0.05 for 5%): " (-0.5) ;;
   sigma <- get_user_input py_float
          "Volatility (sigma, decimal, e.g., 0.30 for 30%): " 0.0001 ;;
   prices <- io_lift (pricer S K T r sigma) ;;
   let '(call_price, put_price) := prices in
   main_report S K T r sigma call_price put_price)%io.

(** Lines 75-79 on their own: the five values [main] hands to the
    pricer. *)
Definition main_inputs : IO (R * R * R * R * R) :=
  (S <- get_user_input py_float "Current Stock Price (S): $" 0.0 ;;
   K <- get_user_input py_float "Option Strike Price (K): $" 0.0 ;;
   T <- get_user_input py_float
          "Time to Expiration (T, in years, e.g., 0.5): " 0.0001 ;;
   r <- get_user_input py_float
          "Risk-Free Rate (r, decimal, e.g., 0.05 for 5%): " (-0.5) ;;
   sigma <- get_user_input py_float
          "Volatility (sigma, decimal, e.g., 0.30 for 30%): " 0.0001 ;;
   io_ret (S, K, T, r, sigma))%io.

Definition main : IO unit := main_with black_scholes_merton.
End Shell.

(** A reading of [float] on plain digit strings, for running the shell. *)
Fixpoint digits_value (acc : Z) (s : string) : option Z :=
  match s with
  | EmptyString => Some acc
  | String c s' =>
      let n := nat_of_ascii c in
      if andb (Nat.leb 48 n) (Nat.leb n 57)
      then digits_value (10 * acc + Z.of_nat (n - 48)) s'
      else None
  end.

Definition float_of_digits (s : string) : option R :=
  match s with
  | EmptyString => None
  | _ => option_map IZR (digits_value 0 s)
  end.


(** A stand-in for libm and scipy, to run the model on doubles: first-order
    values around [1] and [0], the square for the power, the flat [0.5]
    for [norm.cdf].  No statement about the program rests on it. *)
Definition sample_library : Library :=
  {| libm_log := fun x => Ok (x - 1)%float;
     libm_exp := fun x => Ok (1 + x)%float;
     libm_pow := fun x _ => Ok (x * x)%float;
     scipy_norm_cdf := fun _ => 0.5%float |}.

(* ================================================================= *)
(** * Part II: the standard normal distribution function *)

(** ** Integrals of continuous functions *)

Section IntegralFacts.
Variables f g : R -> R.
Hypothesis f_cont : forall x, continuity_pt f x.
Hypothesis g_cont : forall x, continuity_pt g x.

Lemma integral_chasles a b c :
  integral f f_cont a b + integral f f_cont b c = integral f f_cont a c.
Proof. unfold integral. apply RiemannInt_P26. Qed.

Lemma integral_refl a : integral f f_cont a a = 0.
Proof. unfold integral. apply RiemannInt_P9. Qed.

(** Fundamental theorem of calculus, at every point of the line. *)
Lemma integral_deriv a x : derivable_pt_lim (integral f f_cont a) x (f x).
Proof.
  assert (h : x - 1 <= x + 1) by lra.
  pose (C0 := fun (y : R) (_ : x - 1 <= y <= x + 1) => f_cont y).
  pose proof (RiemannInt_P28 (f := f) (x := x) h C0 ltac:(lra)) as HP.
  apply (derivable_pt_lim_locally_ext
           (fun z => integral f f_cont a (x - 1) + primitive h (FTC_P1 h C0) z)
           _ x (x - 1) (x + 1)).
  - lra.
  - intros z Hz. unfold primitive.
    destruct (Rle_dec (x - 1) z) as [H1 | H1]; [| lra].
    destruct (Rle_dec z (x + 1)) as [H2 | H2]; [| lra].
    rewrite <- (integral_chasles a (x - 1) z). f_equal.
    unfold integral. apply RiemannInt_P5.
  - replace (f x) with (0 + f x) by ring.
    apply (derivable_pt_lim_plus (fct_cte (integral f f_cont a (x - 1)))).
    + apply derivable_pt_lim_const.
    + exact HP.
Qed.

Lemma integral_le a b :
  a <= b -> (forall x, a < x < b -> f x <= g x) ->
  integral f f_cont a b <= integral g g_cont a b.
Proof. intros Hab Hle. unfold integral. now apply RiemannInt_P19. Qed.

Lemma integral_linear l
    (fg_cont : forall x, continuity_pt (fun x => f x + l * g x) x) a b :
  integral (fun x => f x + l * g x) fg_cont a b
  = integral f f_cont a b + l * integral g g_cont a b.
Proof. unfold integral. apply RiemannInt_P13. Qed.
End IntegralFacts.

Lemma integral_const c (c_cont : forall x, continuity_pt (fun _ => c) x) a b :
  integral (fun _ => c) c_cont a b = c * (b - a).
Proof. unfold integral. apply (RiemannInt_P15 (c := c)). Qed.

Lemma const_cont c : forall x : R, continuity_pt (fun _ : R => c) x.
Proof. intro x. apply continuity_pt_const. intros y z. reflexivity. Qed.

Lemma cont_of_deriv (f f' : R -> R) :
  (forall x, derivable_pt_lim f x (f' x)) -> forall x, continuity_pt f x.
Proof.
  intros Hd x. apply derivable_continuous_pt. exists (f' x). apply Hd.
Qed.

Lemma cont_lin (f g : R -> R) (l : R) :
  (forall x, continuity_pt f x) -> (forall x, continuity_pt g x) ->
  forall x, continuity_pt (fun y => f y + l * g y) x.
Proof.
  intros Hf Hg x.
  apply (continuity_pt_plus f (mult_real_fct l g)); [apply Hf |].
  apply continuity_pt_scal, Hg.
Qed.

(** ** Monotonicity from the sign of a derivative *)

Section Monotone.
Variables f f' : R -> R.
Hypothesis f_deriv : forall x, derivable_pt_lim f x (f' x).

Let f_derivable : derivable f := fun x => exist _ (f' x) (f_deriv x).

Lemma deriv_nonneg_incr :
  (forall x, 0 <= f' x) -> forall a b, a <= b -> f a <= f b.
Proof. intros H. exact (nonneg_derivative_1 f f_derivable H). Qed.

Lemma deriv_pos_strict_incr :
  (forall x, 0 < f' x) -> forall a b, a < b -> f a < f b.
Proof. intros H. exact (positive_derivative f f_derivable H). Qed.

Lemma deriv_null_const : (forall x, f' x = 0) -> forall a b, f a = f b.
Proof. intros H. exact (null_derivative_1 f f_derivable H). Qed.
End Monotone.

Lemma deriv_nonpos_decr (f f' : R -> R) :
  (forall x, derivable_pt_lim f x (f' x)) -> (forall x, f' x <= 0) ->
  forall a b, a <= b -> f b <= f a.
Proof.
  intros Hd Hn a b Hab.
  assert (H : (- f)%F a <= (- f)%F b).
  { apply (deriv_nonneg_incr (- f)%F (fun x => - f' x)); auto.
    - intro x. apply derivable_pt_lim_opp, Hd.
    - intro x. specialize (Hn x). lra. }
  unfold opp_fct in H. lra.
Qed.

(** Chain rule along an affine change of variable. *)
Lemma deriv_affine (f f' : R -> R) (c d x : R) :
  (forall y, derivable_pt_lim f y (f' y)) ->
  derivable_pt_lim (fun a => f (c * a + d)) x (c * f' (c * x + d)).
Proof.
  intros Hd.
  assert (H : derivable_pt_lim (fun a => c * a + d) x c).
  { pose proof (derivable_pt_lim_plus _ _ x _ _
                  (derivable_pt_lim_scal id c x 1 (derivable_pt_lim_id x))
                  (derivable_pt_lim_const d x)) as H0.
    apply (deriv_value _ _ _ _ H0). ring. }
  rewrite Rmult_comm.
  apply (derivable_pt_lim_comp (fun a => c * a + d) f x c (f' (c * x + d)) H), Hd.
Qed.

(** The integral of a derivative. *)
Lemma integral_of_deriv (f : R -> R) (f_cont : forall x, continuity_pt f x)
    (F : R -> R) a b :
  (forall x, derivable_pt_lim F x (f x)) ->
  integral f f_cont a b = F b - F a.
Proof.
  intros HF.
  assert (Hc : forall x y,
             integral f f_cont a x - F x = integral f f_cont a y - F y).
  { apply (deriv_null_const (fun x => integral f f_cont a x - F x)
             (fun x => f x - f x)).
    - intro x. apply (derivable_pt_lim_minus (integral f f_cont a) F).
      + apply integral_deriv.
      + apply HF.
    - intro x. ring. }
  specialize (Hc b a). rewrite integral_refl in Hc. lra.
Qed.

(** ** The Gaussian and its area *)

Lemma gauss_pos t : 0 < gauss t.
Proof. apply exp_pos. Qed.

Lemma gauss_even t : gauss (- t) = gauss t.
Proof. unfold gauss. replace (- t * - t) with (t * t) by ring. reflexivity. Qed.

Lemma gauss_area_deriv x : derivable_pt_lim gauss_area x (gauss x).
Proof. apply integral_deriv. Qed.

Lemma gauss_area_0 : gauss_area 0 = 0.
Proof. apply integral_refl. Qed.

Lemma gauss_area_strict_incr a b : a < b -> gauss_area a < gauss_area b.
Proof.
  apply (deriv_pos_strict_incr gauss_area gauss gauss_area_deriv).
  exact gauss_pos.
Qed.

Lemma gauss_area_odd x : gauss_area (- x) = - gauss_area x.
Proof.
  pose (H := fun y => gauss_area y + gauss_area (-1 * y + 0)).
  assert (Hc : forall a b, H a = H b).
  { apply (deriv_null_const H (fun y => gauss y + -1 * gauss (-1 * y + 0))).
    - intro y.
      apply (derivable_pt_lim_plus gauss_area (fun y => gauss_area (-1 * y + 0))).
      + apply gauss_area_deriv.
      + apply (deriv_affine gauss_area gauss), gauss_area_deriv.
    - intro y. replace (-1 * y + 0) with (- y) by ring.
      rewrite gauss_even. ring. }
  specialize (Hc x 0). unfold H in Hc.
  replace (-1 * x + 0) with (- x) in Hc by ring.
  replace (-1 * 0 + 0) with 0 in Hc by ring.
  rewrite gauss_area_0 in Hc. lra.
Qed.

Lemma gauss_le_exp t : gauss t <= exp (/ 2 - t).
Proof.
  unfold gauss.
  assert (H : - (t * t / 2) <= / 2 - t).
  { pose proof (Rle_0_sqr (t - 1)) as Hsq. unfold Rsqr in Hsq. lra. }
  destruct H as [H | H].
  - left. now apply exp_increasing.
  - rewrite H. right. reflexivity.
Qed.

Lemma gauss_area_bounded x : gauss_area x <= exp (/ 2).
Proof.
  destruct (Rle_lt_dec x 0) as [Hx | Hx].
  - destruct Hx as [Hx | ->].
    + pose proof (gauss_area_strict_incr x 0 Hx) as H.
      rewrite gauss_area_0 in H.
      pose proof (exp_pos (/ 2)). lra.
    + rewrite gauss_area_0. left. apply exp_pos.
  - pose (B := fun y => (- (exp (-1 * y + / 2)) - gauss_area y)).
    assert (HB : B 0 <= B x).
    { apply (deriv_nonneg_incr B (fun y => - (-1 * exp (-1 * y + / 2)) - gauss y)).
      - intro y.
        apply (derivable_pt_lim_minus (fun y => - exp (-1 * y + / 2)) gauss_area).
        + apply (derivable_pt_lim_opp (fun y => exp (-1 * y + / 2))).
          apply (deriv_affine exp exp), derivable_pt_lim_exp.
        + apply gauss_area_deriv.
      - intro y. pose proof (gauss_le_exp y) as H.
        replace (-1 * y + / 2) with (/ 2 - y) by ring. lra.
      - lra. }
    unfold B in HB. rewrite gauss_area_0 in HB.
    replace (-1 * 0 + / 2) with (/ 2) in HB by ring.
    pose proof (exp_pos (-1 * x + / 2)). lra.
Qed.

Definition gauss_area_values (y : R) : Prop := exists x, y = gauss_area x.

Lemma gauss_area_values_bound : bound gauss_area_values.
Proof.
  exists (exp (/ 2)). intros y [x ->]. apply gauss_area_bounded.
Qed.

Lemma gauss_area_values_inhabited : exists y, gauss_area_values y.
Proof. exists (gauss_area 0), 0. reflexivity. Qed.

(** Half of the total mass of the Gaussian: the least upper bound of its
    areas, that is the improper integral of [gauss] over the positive half
    line.  Its value, [sqrt (PI / 2)], is [gauss_half_mass_value] below. *)
Definition gauss_half_mass : R :=
  proj1_sig (completeness gauss_area_values
               gauss_area_values_bound gauss_area_values_inhabited).

Lemma gauss_half_mass_lub : is_lub gauss_area_values gauss_half_mass.
Proof.
  unfold gauss_half_mass.
  destruct (completeness _ _ _) as [m Hm]. exact Hm.
Qed.

Lemma gauss_area_lt_half_mass x : gauss_area x < gauss_half_mass.
Proof.
  destruct gauss_half_mass_lub as [Hub _].
  apply Rlt_le_trans with (gauss_area (x + 1)).
  - apply gauss_area_strict_incr. lra.
  - apply Hub. now exists (x + 1).
Qed.

Lemma gauss_half_mass_pos : 0 < gauss_half_mass.
Proof. rewrite <- gauss_area_0. apply gauss_area_lt_half_mass. Qed.

Lemma gauss_area_approaches eps :
  0 < eps ->
  exists x0, forall x, x0 <= x -> gauss_half_mass - eps < gauss_area x.
Proof.
  intros Heps.
  destruct gauss_half_mass_lub as [_ Hleast].
  destruct (Classical_Prop.classic
              (exists x0, gauss_half_mass - eps < gauss_area x0))
    as [[x0 H0] | Hno].
  - exists x0. intros x [Hx | <-]; [| exact H0].
    pose proof (gauss_area_strict_incr x0 x Hx). lra.
  - exfalso.
    assert (Hub : is_upper_bound gauss_area_values (gauss_half_mass - eps)).
    { intros y [x ->]. apply Rnot_lt_le. intro H. apply Hno. now exists x. }
    specialize (Hleast _ Hub). lra.
Qed.


(** ** The Gaussian integral

    The area of the Gaussian over the half line is [sqrt (PI / 2)].  With
    [wedge x] the integral over [0, 1] of
    [exp (- x^2 (1 + t^2) / 2) / (1 + t^2)], the function
    [gauss_area x ^ 2 + 2 * wedge x] has a null derivative; it is [PI / 2]
    at [0], and [wedge] vanishes at infinity. *)

Lemma gauss_le_1 t : gauss t <= 1.
Proof.
  unfold gauss. rewrite <- exp_0.
  assert (H : - (t * t / 2) <= 0) by (pose proof (Rle_0_sqr t) as Hs; unfold Rsqr in Hs; lra).
  destruct H as [H | H].
  - left. now apply exp_increasing.
  - rewrite H. right. reflexivity.
Qed.

(** The Gaussian of a multiple of the variable. *)
Lemma gauss_scaled_deriv c x :
  derivable_pt_lim (fun y => gauss (c * y)) x (- (c * c * x) * gauss (c * x)).
Proof.
  pose proof (deriv_affine gauss (fun t => - t * gauss t) c 0 x gauss_deriv) as H.
  apply (derivable_pt_lim_ext _ (fun y => gauss (c * y))) in H.
  - apply (deriv_value _ _ _ _ H). rewrite Rplus_0_r. ring.
  - intro z. now rewrite Rplus_0_r.
Qed.

(** [bell x t] is [exp (- x^2 (1 + t^2) / 2)]. *)
Definition bell (x t : R) : R := gauss x * gauss (t * x).

Lemma bell_pos x t : 0 < bell x t.
Proof. apply Rmult_lt_0_compat; apply gauss_pos. Qed.

Lemma bell_le_gauss x t : bell x t <= gauss x.
Proof.
  unfold bell. pose proof (gauss_pos x). pose proof (gauss_le_1 (t * x)).
  pose proof (gauss_pos (t * x)). nra.
Qed.

Lemma bell_le_1 x t : bell x t <= 1.
Proof. pose proof (bell_le_gauss x t). pose proof (gauss_le_1 x). lra. Qed.

Lemma bell_deriv_x t x :
  derivable_pt_lim (fun y => bell y t) x (- x * (1 + t * t) * bell x t).
Proof.
  pose proof (derivable_pt_lim_mult _ _ x _ _ (gauss_deriv x) (gauss_scaled_deriv t x)) as H.
  apply (deriv_value _ _ _ _ H). unfold bell. ring.
Qed.

Lemma bell_deriv_t x t :
  derivable_pt_lim (fun s => bell x s) t (- (x * x * t) * bell x t).
Proof.
  pose proof (gauss_scaled_deriv x t) as H0.
  apply (derivable_pt_lim_ext _ (fun s => gauss (s * x))) in H0;
    [| intro z; now rewrite Rmult_comm].
  pose proof (derivable_pt_lim_scal _ (gauss x) t _ H0) as H.
  apply (deriv_value _ _ _ _ H). unfold bell. rewrite (Rmult_comm x t). ring.
Qed.

(** The integrand of the auxiliary integral and its two derivatives in [x]. *)
Definition slice (x t : R) : R := bell x t / (1 + t * t).
Definition slice' (x t : R) : R := - x * bell x t.
Definition slice'' (x t : R) : R := bell x t * (x * x * (1 + t * t) - 1).

Lemma one_plus_sq_pos t : 0 < 1 + t * t.
Proof. pose proof (Rle_0_sqr t) as H. unfold Rsqr in H. lra. Qed.

Lemma slice_deriv t x : derivable_pt_lim (fun y => slice y t) x (slice' x t).
Proof.
  pose proof (derivable_pt_lim_scal _ (/ (1 + t * t)) x _ (bell_deriv_x t x)) as H.
  apply (derivable_pt_lim_ext _ (fun y => slice y t)) in H.
  - apply (deriv_value _ _ _ _ H). unfold slice'.
    pose proof (one_plus_sq_pos t). field. lra.
  - intro z. unfold mult_real_fct, slice, Rdiv. ring.
Qed.

Lemma slice'_deriv t x : derivable_pt_lim (fun y => slice' y t) x (slice'' x t).
Proof.
  pose proof (derivable_pt_lim_mult _ _ x _ _
                (derivable_pt_lim_opp _ x _ (derivable_pt_lim_id x))
                (bell_deriv_x t x)) as H.
  apply (deriv_value _ _ _ _ H). unfold slice'', opp_fct, id. ring.
Qed.

Lemma slice''_bound x t : 0 <= t <= 1 -> Rabs (slice'' x t) <= 1 + 2 * (x * x).
Proof.
  intros Ht. unfold slice''.
  pose proof (bell_pos x t) as Hp. pose proof (bell_le_1 x t) as H1.
  pose proof (Rle_0_sqr x) as Hx. unfold Rsqr in Hx.
  assert (Htt : 0 <= t * t <= 1) by nra.
  assert (Hq : 0 <= x * x * (t * t) <= x * x).
  { split; [apply Rmult_le_pos; lra |].
    rewrite <- (Rmult_1_r (x * x)) at 2. apply Rmult_le_compat_l; lra. }
  rewrite Rabs_mult, (Rabs_pos_eq (bell x t)) by lra.
  assert (HQ : Rabs (x * x * (1 + t * t) - 1) <= 1 + 2 * (x * x)).
  { apply Rabs_le. split; lra. }
  pose proof (Rabs_pos (x * x * (1 + t * t) - 1)).
  rewrite <- (Rmult_1_l (1 + 2 * (x * x))).
  apply Rmult_le_compat; lra.
Qed.

Lemma slice_cont x : forall t, continuity_pt (slice x) t.
Proof.
  intro t.
  pose (q := fun s : R => 1 + s * s).
  assert (Hb : continuity_pt (fun s => bell x s) t).
  { apply (cont_of_deriv _ (fun t => - (x * x * t) * bell x t)). intro s. apply bell_deriv_t. }
  assert (Hq : continuity_pt q t).
  { apply (cont_of_deriv _ (fun s => 0 + (1 * s + s * 1))). intro s.
    apply (derivable_pt_lim_plus (fct_cte 1) (id * id)%F).
    - apply derivable_pt_lim_const.
    - apply derivable_pt_lim_mult; apply derivable_pt_lim_id. }
  apply (continuity_pt_mult (fun s => bell x s) (/ q)%F t Hb).
  apply continuity_pt_inv; [exact Hq |].
  unfold q. pose proof (one_plus_sq_pos t). lra.
Qed.

Lemma slice'_cont x : forall t, continuity_pt (slice' x) t.
Proof.
  apply (cont_of_deriv _ (fun t => - x * (- (x * x * t) * bell x t))). intro t.
  apply (derivable_pt_lim_scal (fun s => bell x s) (- x) t), bell_deriv_t.
Qed.

Lemma between_abs a b c :
  Rmin a b <= c <= Rmax a b -> Rabs (c - a) <= Rabs (b - a).
Proof.
  unfold Rmin, Rmax. destruct (Rle_dec a b); intros [H1 H2];
    unfold Rabs; destruct (Rcase_abs (c - a)), (Rcase_abs (b - a)); lra.
Qed.

Lemma sq_le_abs x y : Rabs x <= y -> x * x <= y * y.
Proof.
  intros H. pose proof (Rabs_pos x) as Hp.
  replace (x * x) with (Rabs x * Rabs x).
  - apply Rmult_le_compat; lra.
  - unfold Rabs. destruct (Rcase_abs x); ring.
Qed.

(** Second-order bound on the integrand, uniform in [t]. *)
Lemma slice_taylor x eta t :
  0 <= t <= 1 -> Rabs eta <= 1 ->
  Rabs (slice (x + eta) t - slice x t - eta * slice' x t)
  <= (1 + 2 * ((Rabs x + 1) * (Rabs x + 1))) * (eta * eta).
Proof.
  intros Ht Heta.
  set (M := 1 + 2 * ((Rabs x + 1) * (Rabs x + 1))).
  destruct (MVT_abs (fun y => slice y t - y * slice' x t)
              (fun y => slice' y t - slice' x t) x (x + eta)) as [c [Hc Hcb]].
  { intros y _.
    pose proof (derivable_pt_lim_minus _ _ y _ _ (slice_deriv t y)
                  (derivable_pt_lim_scal_right id y 1 (slice' x t) (derivable_pt_lim_id y))) as H.
    apply (deriv_value _ _ _ _ H). ring. }
  destruct (MVT_abs (fun y => slice' y t) (fun y => slice'' y t) x c) as [c' [Hc' Hcb']].
  { intros y _. apply slice'_deriv. }
  apply between_abs in Hcb. apply between_abs in Hcb'.
  replace (x + eta - x) with eta in * by ring.
  replace (slice (x + eta) t - slice x t - eta * slice' x t)
    with (slice (x + eta) t - (x + eta) * slice' x t - (slice x t - x * slice' x t)) by ring.
  rewrite Hc, Hc'.
  assert (Hc'x : Rabs c' <= Rabs x + 1).
  { replace c' with (x + (c' - x)) by ring.
    eapply Rle_trans; [apply Rabs_triang |]. lra. }
  assert (Hs : Rabs (slice'' c' t) <= M).
  { eapply Rle_trans; [apply (slice''_bound c' t Ht) |].
    unfold M. pose proof (sq_le_abs c' _ Hc'x). lra. }
  assert (HM : 0 <= M).
  { unfold M. pose proof (Rle_0_sqr (Rabs x + 1)) as Hq. unfold Rsqr in Hq. lra. }
  pose proof (Rabs_pos (slice'' c' t)). pose proof (Rabs_pos (c - x)).
  pose proof (Rabs_pos eta).
  replace (eta * eta) with (Rabs eta * Rabs eta)
    by (unfold Rabs; destruct (Rcase_abs eta); ring).
  rewrite <- Rmult_assoc.
  apply Rmult_le_compat; try lra.
  - apply Rmult_le_pos; lra.
  - apply Rmult_le_compat; lra.
Qed.

(** The auxiliary integral and the integral of its derivative. *)
Definition wedge (x : R) : R := integral (slice x) (slice_cont x) 0 1.
Definition wedge' (x : R) : R := integral (slice' x) (slice'_cont x) 0 1.

Lemma wedge_increment x eta :
  Rabs eta <= 1 ->
  Rabs (wedge (x + eta) - wedge x - eta * wedge' x)
  <= (1 + 2 * ((Rabs x + 1) * (Rabs x + 1))) * (eta * eta).
Proof.
  intros Heta.
  set (B := (1 + 2 * ((Rabs x + 1) * (Rabs x + 1))) * (eta * eta)).
  pose (c1 := cont_lin _ _ (-1) (slice_cont (x + eta)) (slice_cont x)).
  pose (c2 := cont_lin _ _ (- eta) c1 (slice'_cont x)).
  assert (Hsum : wedge (x + eta) - wedge x - eta * wedge' x
                 = integral _ c2 0 1).
  { unfold wedge, wedge'.
    rewrite (integral_linear _ _ c1 (slice'_cont x) (- eta) c2).
    rewrite (integral_linear _ _ (slice_cont (x + eta)) (slice_cont x) (-1) c1).
    ring. }
  rewrite Hsum.
  assert (Hpt : forall t, 0 < t < 1 ->
            - B <= slice (x + eta) t + -1 * slice x t + - eta * slice' x t <= B).
  { intros t Ht.
    pose proof (slice_taylor x eta t ltac:(lra) Heta) as H.
    fold B in H.
    replace (slice (x + eta) t + -1 * slice x t + - eta * slice' x t)
      with (slice (x + eta) t - slice x t - eta * slice' x t) by ring.
    unfold Rabs in H. destruct (Rcase_abs _) in H; lra. }
  apply Rabs_le. split.
  - apply Rle_trans with (integral _ (const_cont (- B)) 0 1).
    + rewrite integral_const. lra.
    + apply integral_le; [lra |]. intros t Ht. apply (Hpt t Ht).
  - apply Rle_trans with (integral _ (const_cont B) 0 1).
    + apply integral_le; [lra |]. intros t Ht. apply (Hpt t Ht).
    + rewrite integral_const. lra.
Qed.

(** Differentiation under the integral sign. *)
Lemma wedge_deriv x : derivable_pt_lim wedge x (wedge' x).
Proof.
  set (M := 1 + 2 * ((Rabs x + 1) * (Rabs x + 1))).
  assert (HM : 0 < M).
  { unfold M. pose proof (Rle_0_sqr (Rabs x + 1)) as Hq. unfold Rsqr in Hq. lra. }
  intros eps Heps.
  assert (Hd : 0 < Rmin 1 (eps / M)).
  { apply Rmin_pos; [lra | now apply Rdiv_lt_0_compat]. }
  exists (mkposreal _ Hd). cbn [pos]. intros h Hh Hsmall.
  assert (H1 : Rabs h < 1) by (eapply Rlt_le_trans; [exact Hsmall | apply Rmin_l]).
  assert (H2 : Rabs h < eps / M) by (eapply Rlt_le_trans; [exact Hsmall | apply Rmin_r]).
  pose proof (wedge_increment x h ltac:(lra)) as Hinc. fold M in Hinc.
  replace ((wedge (x + h) - wedge x) / h - wedge' x)
    with ((wedge (x + h) - wedge x - h * wedge' x) * / h) by (field; exact Hh).
  rewrite Rabs_mult, Rabs_inv.
  assert (Hah : 0 < Rabs h) by now apply Rabs_pos_lt.
  apply Rle_lt_trans with (M * Rabs h).
  - apply Rmult_le_reg_r with (Rabs h); [exact Hah |].
    rewrite Rmult_assoc, Rinv_l, Rmult_1_r by lra.
    replace (M * Rabs h * Rabs h) with (M * (h * h)); [exact Hinc |].
    unfold Rabs. destruct (Rcase_abs h); ring.
  - apply Rmult_lt_reg_r with (/ M); [now apply Rinv_0_lt_compat |].
    replace (M * Rabs h * / M) with (Rabs h) by (field; lra).
    exact H2.
Qed.

Lemma gauss_0 : gauss 0 = 1.
Proof. unfold gauss. replace (- (0 * 0 / 2)) with 0 by field. apply exp_0. Qed.

Lemma wedge'_value x : wedge' x = - gauss x * gauss_area x.
Proof.
  unfold wedge'.
  rewrite (integral_of_deriv _ _ (fun t => - gauss x * gauss_area (x * t + 0))).
  - replace (x * 1 + 0) with x by ring. replace (x * 0 + 0) with 0 by ring.
    rewrite gauss_area_0. ring.
  - intro t.
    pose proof (derivable_pt_lim_scal _ (- gauss x) t _
                  (deriv_affine gauss_area gauss x 0 t gauss_area_deriv)) as H.
    apply (deriv_value _ _ _ _ H). unfold slice', bell.
    rewrite Rplus_0_r, (Rmult_comm t x). ring.
Qed.

Lemma wedge_0 : wedge 0 = PI / 4.
Proof.
  unfold wedge. rewrite (integral_of_deriv _ _ atan).
  - rewrite atan_1, atan_0. ring.
  - intro t. apply (deriv_value _ _ _ _ (derivable_pt_lim_atan t)).
    unfold slice, bell. rewrite Rmult_0_r, gauss_0.
    pose proof (one_plus_sq_pos t). field. lra.
Qed.

(** The square of the area and the auxiliary integral add up to a constant. *)
Lemma gauss_area_sq x : gauss_area x * gauss_area x + 2 * wedge x = PI / 2.
Proof.
  assert (Hc : forall a b,
             gauss_area a * gauss_area a + 2 * wedge a
             = gauss_area b * gauss_area b + 2 * wedge b).
  { apply (deriv_null_const _
             (fun y => (gauss y * gauss_area y + gauss_area y * gauss y) + 2 * wedge' y)).
    - intro y.
      apply (derivable_pt_lim_plus (gauss_area * gauss_area)%F (mult_real_fct 2 wedge)).
      + apply derivable_pt_lim_mult; apply gauss_area_deriv.
      + apply derivable_pt_lim_scal, wedge_deriv.
    - intro y. rewrite wedge'_value. ring. }
  rewrite (Hc x 0), gauss_area_0, wedge_0. field.
Qed.

Lemma wedge_bounds x : 0 <= wedge x <= gauss x.
Proof.
  unfold wedge. split.
  - apply Rle_trans with (integral _ (const_cont 0) 0 1).
    + rewrite integral_const. lra.
    + apply integral_le; [lra |]. intros t _. unfold slice.
      left. apply Rdiv_lt_0_compat; [apply bell_pos | apply one_plus_sq_pos].
  - apply Rle_trans with (integral _ (const_cont (gauss x)) 0 1).
    + apply integral_le; [lra |]. intros t _. unfold slice.
      pose proof (bell_le_gauss x t) as Hb. pose proof (bell_pos x t) as Hp.
      pose proof (Rle_0_sqr t) as Ht. unfold Rsqr in Ht.
      apply Rmult_le_reg_r with (1 + t * t); [lra |].
      unfold Rdiv. rewrite Rmult_assoc, Rinv_l by lra. nra.
    + rewrite integral_const. lra.
Qed.

Lemma gauss_vanishes eps : 0 < eps -> exists x, 0 <= x /\ gauss x < eps.
Proof.
  intros Heps.
  exists (Rmax 0 (3 / 2 - ln eps)). split; [apply Rmax_l |].
  apply Rle_lt_trans with (exp (/ 2 - Rmax 0 (3 / 2 - ln eps))); [apply gauss_le_exp |].
  rewrite <- (exp_ln eps Heps) at 2.
  apply exp_increasing.
  pose proof (Rmax_r 0 (3 / 2 - ln eps)). lra.
Qed.

(** The Gaussian integral: half of the mass of [gauss] is [sqrt (PI / 2)]. *)
Lemma gauss_half_mass_value : gauss_half_mass = sqrt (PI / 2).
Proof.
  pose proof PI_RGT_0 as Hpi.
  pose proof gauss_half_mass_pos as HL.
  destruct gauss_half_mass_lub as [Hub Hleast].
  apply Rle_antisym.
  - apply Hleast. intros y [x ->].
    destruct (Rle_lt_dec (gauss_area x) 0) as [Hneg | Hpos].
    + pose proof (sqrt_pos (PI / 2)). lra.
    + rewrite <- (sqrt_square (gauss_area x)) by lra.
      apply sqrt_le_1_alt.
      pose proof (gauss_area_sq x). pose proof (wedge_bounds x). lra.
  - apply Rnot_lt_le. intro Hlt.
    assert (Hsq : gauss_half_mass * gauss_half_mass < PI / 2).
    { apply sqrt_lt_0_alt. rewrite sqrt_square by lra. exact Hlt. }
    destruct (gauss_vanishes ((PI / 2 - gauss_half_mass * gauss_half_mass) / 2))
      as [x [Hx Hg]]; [lra |].
    pose proof (gauss_area_lt_half_mass x) as Hxl.
    assert (H0 : 0 <= gauss_area x).
    { destruct Hx as [Hx | <-]; [| rewrite gauss_area_0; lra].
      pose proof (gauss_area_strict_incr 0 x Hx) as H. rewrite gauss_area_0 in H. lra. }
    pose proof (gauss_area_sq x). pose proof (wedge_bounds x).
    assert (gauss_area x * gauss_area x <= gauss_half_mass * gauss_half_mass)
      by (apply Rmult_le_compat; lra).
    lra.
Qed.

Lemma gauss_mass_value : 2 * gauss_half_mass = sqrt (2 * PI).
Proof.
  rewrite gauss_half_mass_value.
  pose proof PI_RGT_0 as Hpi.
  rewrite <- (sqrt_square 2) at 1 by lra.
  rewrite <- sqrt_mult by lra.
  f_equal. field.
Qed.

(** ** The distribution function *)

Lemma norm_mass : sqrt (2 * PI) = 2 * gauss_half_mass.
Proof. symmetry. apply gauss_mass_value. Qed.

Lemma norm_cdf_deriv x : derivable_pt_lim norm_cdf x (norm_pdf x).
Proof.
  pose proof (derivable_pt_lim_plus _ _ x _ _
                (derivable_pt_lim_const (/ 2) x)
                (derivable_pt_lim_scal gauss_area (/ sqrt (2 * PI)) x _
                   (gauss_area_deriv x))) as H.
  apply (derivable_pt_lim_ext _ norm_cdf) in H.
  - apply (deriv_value _ _ _ _ H). unfold norm_pdf, Rdiv. ring.
  - intro z. unfold plus_fct, fct_cte, mult_real_fct, norm_cdf, Rdiv. ring.
Qed.

Lemma norm_pdf_pos x : 0 < norm_pdf x.
Proof.
  unfold norm_pdf. rewrite norm_mass.
  apply Rdiv_lt_0_compat; [apply gauss_pos |].
  pose proof gauss_half_mass_pos. lra.
Qed.

Lemma norm_cdf_sym x : norm_cdf (- x) = 1 - norm_cdf x.
Proof.
  unfold norm_cdf. rewrite gauss_area_odd, norm_mass.
  pose proof gauss_half_mass_pos. field. lra.
Qed.

Lemma norm_cdf_scaled x :
  norm_cdf x * (2 * gauss_half_mass) = gauss_half_mass + gauss_area x.
Proof.
  unfold norm_cdf. rewrite norm_mass.
  pose proof gauss_half_mass_pos. field. lra.
Qed.

Lemma norm_cdf_lt_1 x : norm_cdf x < 1.
Proof.
  pose proof gauss_half_mass_pos as HL.
  pose proof (gauss_area_lt_half_mass x) as Hx.
  apply Rmult_lt_reg_r with (2 * gauss_half_mass); [lra |].
  rewrite norm_cdf_scaled. lra.
Qed.

Lemma norm_cdf_pos x : 0 < norm_cdf x.
Proof.
  pose proof (norm_cdf_lt_1 (- x)) as H. rewrite norm_cdf_sym in H. lra.
Qed.

Lemma norm_cdf_incr a b : a <= b -> norm_cdf a <= norm_cdf b.
Proof.
  apply (deriv_nonneg_incr norm_cdf norm_pdf norm_cdf_deriv).
  intro x. left. apply norm_pdf_pos.
Qed.

(** The left tail vanishes. *)
Lemma norm_cdf_left_tail eps :
  0 < eps -> exists x0, forall x, x <= x0 -> norm_cdf x < eps.
Proof.
  intros Heps.
  pose proof gauss_half_mass_pos as HL.
  destruct (gauss_area_approaches (eps * (2 * gauss_half_mass))) as [y0 Hy0].
  { apply Rmult_lt_0_compat; lra. }
  exists (- y0). intros x Hx.
  assert (Hy : y0 <= - x) by lra.
  specialize (Hy0 _ Hy). rewrite gauss_area_odd in Hy0.
  apply Rmult_lt_reg_r with (2 * gauss_half_mass); [lra |].
  rewrite norm_cdf_scaled. lra.
Qed.


(** ** Normalised prices

    Black-Scholes prices divided by the discounted strike, as functions of
    the log forward moneyness [a = ln (S / K) + r * T] for a total
    volatility [v = sigma * sqrt T]. *)

Definition unit_call (v a : R) : R :=
  exp a * norm_cdf (/ v * a + v / 2) - norm_cdf (/ v * a + - (v / 2)).

Definition unit_put (v a : R) : R := unit_call v a - exp a + 1.

Lemma gauss_shift v a :
  v <> 0 -> exp a * gauss (/ v * a + v / 2) = gauss (/ v * a + - (v / 2)).
Proof.
  intros Hv. unfold gauss. rewrite <- exp_plus. f_equal. field. exact Hv.
Qed.

Lemma unit_call_deriv v a :
  v <> 0 ->
  derivable_pt_lim (unit_call v) a (exp a * norm_cdf (/ v * a + v / 2)).
Proof.
  intros Hv.
  pose proof (derivable_pt_lim_minus _ _ a _ _
                (derivable_pt_lim_mult _ _ a _ _ (derivable_pt_lim_exp a)
                   (deriv_affine norm_cdf norm_pdf (/ v) (v / 2) a norm_cdf_deriv))
                (deriv_affine norm_cdf norm_pdf (/ v) (- (v / 2)) a norm_cdf_deriv))
    as H.
  cbv beta in H.
  apply (deriv_value _ _ _ _ H).
  unfold norm_pdf. rewrite <- (gauss_shift v a Hv), norm_mass.
  pose proof gauss_half_mass_pos. field. split; [lra | exact Hv].
Qed.

Lemma unit_put_deriv v a :
  v <> 0 ->
  derivable_pt_lim (unit_put v) a (exp a * (norm_cdf (/ v * a + v / 2) - 1)).
Proof.
  intros Hv.
  pose proof (derivable_pt_lim_plus _ _ a _ _
                (derivable_pt_lim_minus _ _ a _ _ (unit_call_deriv v a Hv)
                   (derivable_pt_lim_exp a))
                (derivable_pt_lim_const 1 a)) as H.
  apply (deriv_value _ _ _ _ H). ring.
Qed.

Lemma unit_call_incr v a b : v <> 0 -> a <= b -> unit_call v a <= unit_call v b.
Proof.
  intros Hv.
  apply (deriv_nonneg_incr (unit_call v)
           (fun a => exp a * norm_cdf (/ v * a + v / 2))).
  - intro x. now apply unit_call_deriv.
  - intro x. left. apply Rmult_lt_0_compat; [apply exp_pos | apply norm_cdf_pos].
Qed.

Lemma unit_put_decr v a b : v <> 0 -> a <= b -> unit_put v b <= unit_put v a.
Proof.
  intros Hv.
  apply (deriv_nonpos_decr (unit_put v)
           (fun a => exp a * (norm_cdf (/ v * a + v / 2) - 1))).
  - intro x. now apply unit_put_deriv.
  - intro x. pose proof (exp_pos x).
    pose proof (norm_cdf_lt_1 (/ v * x + v / 2)). nra.
Qed.

(** A normalised call is never negative: it increases with the moneyness
    and is squeezed to zero far out of the money. *)
Lemma unit_call_nonneg v a : 0 < v -> 0 <= unit_call v a.
Proof.
  intros Hv.
  destruct (Rle_lt_dec 0 (unit_call v a)) as [H | H]; [exact H | exfalso].
  destruct (norm_cdf_left_tail (- unit_call v a)) as [x0 Hx0]; [lra |].
  pose (b := Rmin a (v * (x0 + v / 2))).
  assert (Hba : b <= a) by apply Rmin_l.
  assert (Hd2 : / v * b + - (v / 2) <= x0).
  { assert (Hb : b <= v * (x0 + v / 2)) by apply Rmin_r.
    assert (Hiv : 0 < / v) by now apply Rinv_0_lt_compat.
    assert (H1 : / v * b <= / v * (v * (x0 + v / 2)))
      by (apply Rmult_le_compat_l; lra).
    replace (/ v * (v * (x0 + v / 2))) with (x0 + v / 2) in H1 by (field; lra).
    lra. }
  specialize (Hx0 _ Hd2).
  assert (Hmono : unit_call v b <= unit_call v a) by (apply unit_call_incr; lra).
  unfold unit_call in Hmono at 1.
  pose proof (exp_pos b). pose proof (norm_cdf_pos (/ v * b + v / 2)).
  nra.
Qed.


(* ================================================================= *)
(** * Part III: properties of the program *)

(** ** The primitives, where they do not raise *)

Lemma py_div_ok x y : y <> 0 -> py_div x y = Ok (x / y).
Proof. intros Hy. unfold py_div. destruct (Req_dec_T y 0); [contradiction | reflexivity]. Qed.

Lemma py_div_zero x : py_div x 0 = Raise ZeroDivisionError.
Proof. unfold py_div. destruct (Req_dec_T 0 0); [reflexivity | contradiction]. Qed.

Lemma math_log_ok x : 0 < x -> math_log x = Ok (ln x).
Proof. intros Hx. unfold math_log. destruct (Rle_dec x 0); [lra | reflexivity]. Qed.

Lemma math_log_domain x : x <= 0 -> math_log x = Raise ValueError.
Proof. intros Hx. unfold math_log. destruct (Rle_dec x 0); [reflexivity | lra]. Qed.

Lemma math_sqrt_ok x : 0 <= x -> math_sqrt x = Ok (sqrt x).
Proof. intros Hx. unfold math_sqrt. destruct (Rlt_dec x 0); [lra | reflexivity]. Qed.

(** ** The closed formulas, as the specification writes them *)

Definition d1_formula (S K T r sigma : R) : R :=
  (ln (S / K) + (r + 0.5 * sigma ^ 2) * T) / (sigma * sqrt T).

Definition d2_formula (S K T r sigma : R) : R :=
  d1_formula S K T r sigma - sigma * sqrt T.

Definition call_formula (S K T r sigma : R) : R :=
  S * norm_cdf (d1_formula S K T r sigma)
  - K * exp (- r * T) * norm_cdf (d2_formula S K T r sigma).

Definition put_formula (S K T r sigma : R) : R :=
  K * exp (- r * T) * norm_cdf (- d2_formula S K T r sigma)
  - S * norm_cdf (- d1_formula S K T r sigma).

(** Over [R] positive arguments reach the formulas; on doubles they need
    not, see [black_scholes_merton64]. *)
Lemma standard_prices_formula S K T r sigma :
  0 < S -> 0 < K -> 0 < T -> 0 < sigma ->
  standard_prices S K T r sigma
  = Ok (call_formula S K T r sigma, put_formula S K T r sigma).
Proof.
  intros HS HK HT Hsigma.
  assert (Hroot : 0 < sqrt T) by now apply sqrt_lt_R0.
  assert (Hq : 0 < S / K) by now apply Rdiv_lt_0_compat.
  assert (Hden : sigma * sqrt T <> 0) by nra.
  unfold standard_prices.
  rewrite py_div_ok by lra. cbn [result_bind].
  rewrite math_log_ok by exact Hq. cbn [result_bind].
  rewrite math_sqrt_ok by lra. cbn [result_bind].
  rewrite py_div_ok by exact Hden. cbn [result_bind].
  reflexivity.
Qed.

Lemma black_scholes_merton_standard S K T r sigma :
  0 < T -> black_scholes_merton S K T r sigma = standard_prices S K T r sigma.
Proof.
  intros HT. unfold black_scholes_merton.
  destruct (Rle_dec T 0); [lra | reflexivity].
Qed.

Lemma black_scholes_merton_degenerate S K T r sigma :
  T <= 0 -> black_scholes_merton S K T r sigma = Ok (intrinsic_values S K).
Proof.
  intros HT. unfold black_scholes_merton.
  destruct (Rle_dec T 0); [reflexivity | lra].
Qed.

Lemma intrinsic_values_above S K : K < S -> intrinsic_values S K = (S - K, 0).
Proof.
  intros H. unfold intrinsic_values.
  destruct (Rgt_dec S K) as [_ | Hn]; [| unfold Rgt in Hn; lra].
  f_equal. lra.
Qed.

Lemma intrinsic_values_below S K : S <= K -> intrinsic_values S K = (0, K - S).
Proof.
  intros H. unfold intrinsic_values.
  destruct (Rgt_dec S K) as [Hgt | _]; [unfold Rgt in Hgt; lra |].
  f_equal. lra.
Qed.

(** ** Claims on the pricer *)

(** ** The pricer on doubles *)

Lemma float_ltb_leb (x y : PrimFloat.float) :
  (x <? y)%float = true -> (x <=? y)%float = true.
Proof.
  rewrite ltb_spec, leb_spec. unfold SFltb, SFleb.
  destruct (SFcompare _ _) as [[] |]; congruence.
Qed.

Lemma float_not_leb_not_ltb (x y : PrimFloat.float) :
  (x <=? y)%float = false -> (x <? y)%float = false.
Proof.
  intros H. destruct (x <? y)%float eqn:E; [| reflexivity].
  apply float_ltb_leb in E. congruence.
Qed.

Lemma black_scholes_merton64_standard lib S K T r sigma :
  (T <=? 0)%float = false ->
  black_scholes_merton64 lib S K T r sigma = standard_prices64 lib S K T r sigma.
Proof. intros HT. unfold black_scholes_merton64. now rewrite HT. Qed.

Lemma math_sqrt64_ok (T : PrimFloat.float) :
  (T <=? 0)%float = false -> math_sqrt64 T = Ok (PrimFloat.sqrt T).
Proof.
  intros HT. unfold math_sqrt64. now rewrite (float_not_leb_not_ltb _ _ HT).
Qed.

(** C1. On doubles, for a time that is not [<= 0]: when the strike is not
    [0], the rounded quotient [S / K] is not [<= 0], [math.log], the power
    and [math.exp] return, and the rounded product [sigma * sqrt T] is not
    [0], the pricer returns the pair of the Black-Scholes-Merton formulas,
    every operation rounded: [d1], [d2], the call from [N d1] and [N d2],
    the put from [N (- d2)] and [N (- d1)]. *)
Theorem black_scholes_merton64_closed_form
    (lib : Library) (S K T r sigma ln_q sq disc : PrimFloat.float) :
  (T <=? 0)%float = false ->
  (K =? 0)%float = false ->
  (S / K <=? 0)%float = false ->
  libm_log lib (S / K)%float = Ok ln_q ->
  libm_pow lib sigma 2%float = Ok sq ->
  (sigma * PrimFloat.sqrt T =? 0)%float = false ->
  libm_exp lib (- r * T)%float = Ok disc ->
  let N := scipy_norm_cdf lib in
  let d1 := ((ln_q + (r + 0.5 * sq) * T) / (sigma * PrimFloat.sqrt T))%float in
  let d2 := (d1 - sigma * PrimFloat.sqrt T)%float in
  let callPrice := (S * N d1 - K * disc * N d2)%float in
  let putPrice := (K * disc * N (- d2) - S * N (- d1))%float in
  black_scholes_merton64 lib S K T r sigma = Ok (callPrice, putPrice).
Proof.
  intros HT HK Hq Hlog Hpow Hden Hexp. cbv zeta.
  rewrite black_scholes_merton64_standard by exact HT.
  unfold standard_prices64.
  unfold py_div64 at 1. rewrite HK. cbn [result_bind].
  unfold math_log64. rewrite Hq, Hlog. cbn [result_bind].
  rewrite Hpow. cbn [result_bind].
  rewrite !math_sqrt64_ok by exact HT. cbn [result_bind].
  unfold py_div64. rewrite Hden. cbn [result_bind].
  rewrite Hexp. cbn [result_bind]. reflexivity.
Qed.

Lemma black_scholes_merton64_closed_form_witness :
  exists callPrice putPrice,
    black_scholes_merton64 sample_library 100 110 1 0.05 0.2
    = Ok (callPrice, putPrice).
Proof.
  eexists. eexists.
  apply (black_scholes_merton64_closed_form sample_library
           100 110 1 0.05 0.2
           (100 / 110 - 1) (0.2 * 0.2) (1 + - 0.05 * 1));
    reflexivity.
Defined.

(** Positive inputs do not ensure it: with [S = 1e-300] and [K = 1e300]
    the quotient [S / K] rounds to [0.0] and [math.log] raises
    [ValueError], whatever libm and scipy compute. *)
Lemma closed_form_fails_on_underflow :
  (0 <? 1e-300)%float = true /\ (0 <? 1e300)%float = true /\
  (0 <? 1)%float = true /\ (0 <? 0.2)%float = true /\
  (forall lib,
      black_scholes_merton64 lib 1e-300 1e300 1 0.05 0.2 = Raise ValueError) /\
  ~ (exists lib callPrice putPrice,
        black_scholes_merton64 lib 1e-300 1e300 1 0.05 0.2
        = Ok (callPrice, putPrice)).
Proof.
  assert (Hraise : forall lib,
             black_scholes_merton64 lib 1e-300 1e300 1 0.05 0.2
             = Raise ValueError) by (intro lib; reflexivity).
  split; [reflexivity |]. split; [reflexivity |].
  split; [reflexivity |]. split; [reflexivity |].
  split; [exact Hraise |].
  intros (lib & callPrice & putPrice & Hok).
  rewrite Hraise in Hok. discriminate Hok.
Qed.

(** C2. At or after expiry the pricer returns the intrinsic values, the
    tie [S = K] falling on the put side: [(S - K, 0)] when [S > K], and
    [(0, K - S)] otherwise. *)
Theorem black_scholes_merton_expired (S K T r sigma : R) :
  T <= 0 ->
  (S > K -> black_scholes_merton S K T r sigma = Ok (S - K, 0)) /\
  (S <= K -> black_scholes_merton S K T r sigma = Ok (0, K - S)).
Proof.
  intros HT. rewrite black_scholes_merton_degenerate by exact HT.
  split; intros H.
  - now rewrite intrinsic_values_above.
  - now rewrite intrinsic_values_below.
Qed.

Lemma black_scholes_merton_expired_witness :
  black_scholes_merton 110 100 0 0.05 0.2 = Ok (110 - 100, 0) /\
  black_scholes_merton 90 100 0 0.05 0.2 = Ok (0, 100 - 90) /\
  black_scholes_merton 100 100 0 0.05 0.2 = Ok (0, 100 - 100).
Proof.
  repeat split.
  - apply (black_scholes_merton_expired 110 100 0 0.05 0.2); lra.
  - apply (black_scholes_merton_expired 90 100 0 0.05 0.2); lra.
  - apply (black_scholes_merton_expired 100 100 0 0.05 0.2); lra.
Defined.

(** ** The formulas in normalised form *)

Section Moneyness.
Variables S K T r sigma : R.
Hypotheses (HS : 0 < S) (HK : 0 < K) (HT : 0 < T) (Hsigma : 0 < sigma).

Let v : R := sigma * sqrt T.
Let a : R := ln (S / K) + r * T.

Lemma total_volatility_pos : 0 < sigma * sqrt T.
Proof. apply Rmult_lt_0_compat; [exact Hsigma | now apply sqrt_lt_R0]. Qed.

Lemma d1_moneyness : d1_formula S K T r sigma = / v * a + v / 2.
Proof.
  unfold d1_formula, v, a.
  assert (Hroot : 0 < sqrt T) by now apply sqrt_lt_R0.
  assert (Hsq : T = sqrt T * sqrt T) by (symmetry; apply sqrt_sqrt; lra).
  remember (sqrt T) as s eqn:Hs. remember (ln (S / K)) as l eqn:Hl.
  clear Hs Hl. subst T. replace 0.5 with (/ 2) by lra. field. lra.
Qed.

Lemma d2_moneyness : d2_formula S K T r sigma = / v * a + - (v / 2).
Proof. unfold d2_formula. rewrite d1_moneyness. unfold v. lra. Qed.

Lemma discount_growth : exp (- r * T) * exp (r * T) = 1.
Proof. rewrite <- exp_plus. replace (- r * T + r * T) with 0 by ring. apply exp_0. Qed.

Lemma exp_moneyness : K * exp (- r * T) * exp a = S.
Proof.
  unfold a. rewrite exp_plus, exp_ln by now apply Rdiv_lt_0_compat.
  transitivity (S * (exp (- r * T) * exp (r * T))); [field; lra |].
  rewrite discount_growth. ring.
Qed.

Lemma exp_neg_moneyness : S * exp (- a) = K * exp (- r * T).
Proof.
  rewrite <- exp_moneyness at 1.
  rewrite Rmult_assoc, <- exp_plus.
  replace (a + - a) with 0 by ring. rewrite exp_0. ring.
Qed.

(** Put-call parity of the two formulas. *)
Lemma formula_parity :
  call_formula S K T r sigma - put_formula S K T r sigma = S - K * exp (- r * T).
Proof. unfold call_formula, put_formula. rewrite !norm_cdf_sym. ring. Qed.

Lemma call_by_strike :
  call_formula S K T r sigma = K * exp (- r * T) * unit_call v a.
Proof.
  unfold call_formula, unit_call.
  rewrite d1_moneyness, d2_moneyness.
  rewrite <- exp_moneyness at 1. ring.
Qed.

Lemma put_by_strike :
  put_formula S K T r sigma = K * exp (- r * T) * unit_put v a.
Proof.
  pose proof formula_parity as Hp. pose proof call_by_strike as Hc.
  pose proof exp_moneyness as He.
  unfold unit_put. nra.
Qed.

Lemma put_by_spot : put_formula S K T r sigma = S * unit_call v (- a).
Proof.
  unfold put_formula, unit_call.
  rewrite d1_moneyness, d2_moneyness.
  replace (/ v * - a + v / 2) with (- (/ v * a + - (v / 2))) by ring.
  replace (/ v * - a + - (v / 2)) with (- (/ v * a + v / 2)) by ring.
  rewrite <- exp_neg_moneyness. ring.
Qed.

Lemma call_by_spot : call_formula S K T r sigma = S * unit_put v (- a).
Proof.
  pose proof formula_parity as Hp. pose proof put_by_spot as Hc.
  pose proof exp_neg_moneyness as He.
  unfold unit_put. nra.
Qed.
End Moneyness.

(** C10. At or after expiry the returned pair satisfies the undiscounted
    parity [call - put = S - K], and it does not depend on the rate or on
    the volatility. *)
Theorem expired_parity_undiscounted (S K T r sigma : R) :
  T <= 0 ->
  (exists call put,
      black_scholes_merton S K T r sigma = Ok (call, put) /\
      call - put = S - K) /\
  (forall r' sigma',
      black_scholes_merton S K T r' sigma' = black_scholes_merton S K T r sigma).
Proof.
  intros HT. split.
  - rewrite black_scholes_merton_degenerate by exact HT.
    destruct (Rlt_le_dec K S) as [H | H].
    + rewrite intrinsic_values_above by exact H.
      exists (S - K), 0. split; [reflexivity | ring].
    + rewrite intrinsic_values_below by exact H.
      exists 0, (K - S). split; [reflexivity | ring].
  - intros r' sigma'. now rewrite !black_scholes_merton_degenerate.
Qed.

Lemma expired_parity_undiscounted_witness :
  (exists call put,
      black_scholes_merton 90 100 (-1) 0.05 0.2 = Ok (call, put) /\
      call - put = 90 - 100) /\
  (forall r' sigma',
      black_scholes_merton 90 100 (-1) r' sigma'
      = black_scholes_merton 90 100 (-1) 0.05 0.2).
Proof. apply (expired_parity_undiscounted 90 100 (-1) 0.05 0.2); lra. Defined.

(** ** The closed formulas over the reals

    The lemmas under this heading, and under the later headings that name
    the reals, are about the real functions [call_formula] and
    [put_formula]: the formulas the program evaluates in rounded
    arithmetic.  They say nothing of the doubles it returns. *)

Lemma formula_at_the_money S T sigma :
  call_formula S S T 0 sigma = put_formula S S T 0 sigma.
Proof.
  unfold call_formula, put_formula. rewrite !norm_cdf_sym.
  replace (- 0 * T) with 0 by ring. rewrite exp_0. ring.
Qed.

Lemma ln_nondecreasing x y : 0 < x -> x <= y -> ln x <= ln y.
Proof.
  intros Hx [Hlt | ->]; [left; now apply ln_increasing | right; reflexivity].
Qed.

Lemma ratio_le_spot S1 S2 K : 0 < K -> S1 <= S2 -> S1 / K <= S2 / K.
Proof.
  intros HK H. unfold Rdiv. apply Rmult_le_compat_r; [| exact H].
  left. now apply Rinv_0_lt_compat.
Qed.

Lemma ratio_le_strike S K1 K2 : 0 < S -> 0 < K1 -> K1 <= K2 -> S / K2 <= S / K1.
Proof.
  intros HS HK H. unfold Rdiv. apply Rmult_le_compat_l; [lra |].
  apply Rinv_le_contravar; assumption.
Qed.

(** Monotonicity of the closed formulas in the spot and in the strike. *)
Lemma formulas_monotone_spot S1 S2 K T r sigma :
  0 < S1 -> S1 <= S2 -> 0 < K -> 0 < T -> 0 < sigma ->
  call_formula S1 K T r sigma <= call_formula S2 K T r sigma /\
  put_formula S2 K T r sigma <= put_formula S1 K T r sigma.
Proof.
  intros HS1 HS HK HT Hsigma.
  assert (HS2 : 0 < S2) by lra.
  pose proof (total_volatility_pos T sigma HT Hsigma) as Hv.
  assert (Hd : 0 <= K * exp (- r * T))
    by (apply Rmult_le_pos; [lra | left; apply exp_pos]).
  assert (Ha : ln (S1 / K) + r * T <= ln (S2 / K) + r * T).
  { apply Rplus_le_compat_r, ln_nondecreasing.
    - now apply Rdiv_lt_0_compat.
    - now apply ratio_le_spot. }
  rewrite !call_by_strike, !put_by_strike by assumption.
  split; apply Rmult_le_compat_l; try exact Hd.
  - apply unit_call_incr; [lra | exact Ha].
  - apply unit_put_decr; [lra | exact Ha].
Qed.

Lemma formulas_monotone_strike S K1 K2 T r sigma :
  0 < S -> 0 < K1 -> K1 <= K2 -> 0 < T -> 0 < sigma ->
  call_formula S K2 T r sigma <= call_formula S K1 T r sigma /\
  put_formula S K1 T r sigma <= put_formula S K2 T r sigma.
Proof.
  intros HS HK1 HK HT Hsigma.
  assert (HK2 : 0 < K2) by lra.
  pose proof (total_volatility_pos T sigma HT Hsigma) as Hv.
  assert (Ha : - (ln (S / K1) + r * T) <= - (ln (S / K2) + r * T)).
  { apply Ropp_le_contravar, Rplus_le_compat_r, ln_nondecreasing.
    - now apply Rdiv_lt_0_compat.
    - now apply ratio_le_strike. }
  rewrite !call_by_spot, !put_by_spot by assumption.
  split; apply Rmult_le_compat_l; try lra.
  - apply unit_put_decr; [lra | exact Ha].
  - apply unit_call_incr; [lra | exact Ha].
Qed.

(** ** The input loop *)

Section InputLoop.
Variable value_type : string -> Result R.
Variable prompt : string.
Variable min_val : R.

(** A line the loop turns down: no number, or a number below the
    minimum. *)
Definition rejected (line : string) : Prop :=
  value_type line = Raise ValueError \/
  exists v, value_type line = Ok v /\ v < min_val.

(** A line the loop returns the value of. *)
Definition accepted (line : string) (v : R) : Prop :=
  value_type line = Ok v /\ ~ v < min_val.

Definition rejection_message (line : string) : Output :=
  match value_type line with
  | Ok _ => msg_at_least min_val
  | Raise _ => msg_invalid
  end.

(** What is written while the lines of [bad] are turned down: for each
    of them the prompt and then its error message. *)
Definition reprompts (bad : list string) : list Output :=
  flat_map (fun line => [Prompt prompt; rejection_message line]) bad.

Lemma loop_rejected line rest out :
  rejected line ->
  get_user_input_loop value_type prompt min_val (line :: rest) out
  = get_user_input_loop value_type prompt min_val rest
      (out ++ [Prompt prompt; rejection_message line]).
Proof.
  intros [Hbad | [v [Hv Hlow]]]; cbn [get_user_input_loop];
    unfold rejection_message; rewrite ?Hbad, ?Hv.
  - reflexivity.
  - destruct (Rlt_dec v min_val); [reflexivity | contradiction].
Qed.

Lemma loop_accepted line v rest out :
  accepted line v ->
  get_user_input_loop value_type prompt min_val (line :: rest) out
  = (Ok v, mkWorld rest (out ++ [Prompt prompt])).
Proof.
  intros [Hv Hmin]. cbn [get_user_input_loop]. rewrite Hv.
  destruct (Rlt_dec v min_val); [contradiction | reflexivity].
Qed.

Lemma loop_skips bad rest out :
  Forall rejected bad ->
  get_user_input_loop value_type prompt min_val (bad ++ rest) out
  = get_user_input_loop value_type prompt min_val rest (out ++ reprompts bad).
Proof.
  intros Hbad. revert out.
  induction Hbad as [| line bad Hline _ IH]; intros out.
  - cbn [reprompts flat_map app]. now rewrite app_nil_r.
  - rewrite <- app_comm_cons, loop_rejected by exact Hline.
    rewrite IH, <- app_assoc. reflexivity.
Qed.

Lemma loop_first_accepted bad line v rest out :
  Forall rejected bad -> accepted line v ->
  get_user_input_loop value_type prompt min_val (bad ++ line :: rest) out
  = (Ok v, mkWorld rest (out ++ reprompts bad ++ [Prompt prompt])).
Proof.
  intros Hbad Hline.
  rewrite loop_skips by exact Hbad.
  rewrite (loop_accepted line v) by exact Hline.
  now rewrite app_assoc.
Qed.

Lemma loop_exhausted bad out :
  Forall rejected bad ->
  get_user_input_loop value_type prompt min_val bad out
  = (Raise EOFError, mkWorld [] (out ++ reprompts bad ++ [Prompt prompt])).
Proof.
  intros Hbad.
  rewrite <- (app_nil_r bad) at 1.
  rewrite loop_skips by exact Hbad.
  cbn [get_user_input_loop]. now rewrite app_assoc.
Qed.

(** Whatever the loop returns was accepted, after rejected lines only. *)
Lemma loop_returns lines out v w' :
  get_user_input_loop value_type prompt min_val lines out = (Ok v, w') ->
  exists bad line,
    lines = bad ++ line :: stdin w' /\
    Forall rejected bad /\ accepted line v /\
    stdout w' = out ++ reprompts bad ++ [Prompt prompt].
Proof.
  revert out. induction lines as [| line rest IH]; intros out Hrun.
  - discriminate Hrun.
  - assert (Hstep : forall out',
               rejected line ->
               get_user_input_loop value_type prompt min_val rest out' = (Ok v, w') ->
               out' = out ++ [Prompt prompt; rejection_message line] ->
               exists bad line',
                 line :: rest = bad ++ line' :: stdin w' /\
                 Forall rejected bad /\ accepted line' v /\
                 stdout w' = out ++ reprompts bad ++ [Prompt prompt]).
    { intros out' Hrej Hrest ->.
      destruct (IH _ Hrest) as (bad & line' & Hsplit & Hbad & Hacc & Hout).
      exists (line :: bad), line'.
      split; [now rewrite Hsplit |].
      split; [now constructor |].
      split; [exact Hacc |].
      rewrite Hout. cbn [reprompts flat_map]. now rewrite <- !app_assoc. }
    cbn [get_user_input_loop] in Hrun.
    destruct (value_type line) as [x | e] eqn:Hline.
    + destruct (Rlt_dec x min_val) as [Hlow | Hmin].
      * apply (Hstep _ (or_intror (ex_intro _ x (conj Hline Hlow))) Hrun).
        unfold rejection_message. now rewrite Hline.
      * injection Hrun as <- <-.
        exists [], line. repeat split; try assumption. constructor.
    + destruct e; try discriminate Hrun.
      apply (Hstep _ (or_introl Hline) Hrun).
      unfold rejection_message. now rewrite Hline.
Qed.
End InputLoop.

Lemma get_user_input_min value_type prompt min_val w v w' :
  get_user_input value_type prompt min_val w = (Ok v, w') -> min_val <= v.
Proof.
  unfold get_user_input. intros Hrun.
  destruct (loop_returns _ _ _ _ _ _ _ Hrun) as (bad & line & _ & _ & [_ Hmin] & _).
  now apply Rnot_lt_le.
Qed.

(** ** main *)

Section MainProperties.
Variable float : string -> option R.

Lemma py_float_accepted line v min_val :
  float line = Some v -> min_val <= v -> accepted (py_float float) min_val line v.
Proof.
  intros Hline Hmin. split.
  - unfold py_float. now rewrite Hline.
  - now apply Rle_not_lt.
Qed.

Lemma main_inputs_bounds w w' S K T r sigma :
  main_inputs float w = (Ok (S, K, T, r, sigma), w') ->
  0.0 <= S /\ 0.0 <= K /\ 0.0001 <= T /\ -0.5 <= r /\ 0.0001 <= sigma.
Proof.
  unfold main_inputs, io_bind, io_ret. intros Hrun.
  repeat match type of Hrun with
         | context [get_user_input ?vt ?p ?m ?w0] =>
             let E := fresh "E" in
             destruct (get_user_input vt p m w0) as [[? | ?] ?] eqn:E;
             [apply get_user_input_min in E | discriminate Hrun]
         end.
  injection Hrun as <- <- <- <- <- <-.
  repeat split; assumption.
Qed.

Lemma main_inputs_accepts lS lK lT lr lsigma rest out S K T r sigma :
  float lS = Some S -> float lK = Some K -> float lT = Some T ->
  float lr = Some r -> float lsigma = Some sigma ->
  0.0 <= S -> 0.0 <= K -> 0.0001 <= T -> -0.5 <= r -> 0.0001 <= sigma ->
  main_inputs float (mkWorld (lS :: lK :: lT :: lr :: lsigma :: rest) out)
  = (Ok (S, K, T, r, sigma),
     mkWorld rest
       (out ++ [Prompt "Current Stock Price (S): $";
                Prompt "Option Strike Price (K): $";
                Prompt "Time to Expiration (T, in years, e.g., 0.5): ";
                Prompt "Risk-Free Rate (r, decimal, e.g., 0.05 for 5%): ";
                Prompt "Volatility (sigma, decimal, e.g., 0.30 for 30%): "])).
Proof.
  intros HlS HlK HlT Hlr Hlsigma HS HK HT Hr Hsigma.
  unfold main_inputs, io_bind, io_ret, get_user_input. cbn [stdin stdout].
  rewrite (loop_accepted _ _ _ lS S) by now apply py_float_accepted.
  cbn [stdin stdout].
  rewrite (loop_accepted _ _ _ lK K) by now apply py_float_accepted.
  cbn [stdin stdout].
  rewrite (loop_accepted _ _ _ lT T) by now apply py_float_accepted.
  cbn [stdin stdout].
  rewrite (loop_accepted _ _ _ lr r) by now apply py_float_accepted.
  cbn [stdin stdout].
  rewrite (loop_accepted _ _ _ lsigma sigma) by now apply py_float_accepted.
  now rewrite <- !app_assoc.
Qed.

(** [main] never hands the pricer a time that takes the degenerate
    branch: pricing with the standard branch alone gives the same run. *)
Lemma main_standard_only w :
  main float w = main_with float standard_prices w.
Proof.
  unfold main, main_with, io_bind.
  cbn [print stdin stdout].
  repeat match goal with
         | |- context [get_user_input ?vt ?p ?m ?w0] =>
             let E := fresh "E" in
             destruct (get_user_input vt p m w0) as [[? | ?] ?] eqn:E;
             [apply get_user_input_min in E | reflexivity]
         end.
  rewrite black_scholes_merton_standard by lra. reflexivity.
Qed.

(** A run of [main] on five accepted lines, up to the call of the
    pricer. *)
Lemma main_raises lS lK lT lr lsigma rest out S K T r sigma e :
  float lS = Some S -> float lK = Some K -> float lT = Some T ->
  float lr = Some r -> float lsigma = Some sigma ->
  0.0 <= S -> 0.0 <= K -> 0.0001 <= T -> -0.5 <= r -> 0.0001 <= sigma ->
  black_scholes_merton S K T r sigma = Raise e ->
  fst (main float (mkWorld (lS :: lK :: lT :: lr :: lsigma :: rest) out))
  = Raise e.
Proof.
  intros HlS HlK HlT Hlr Hlsigma HS HK HT Hr Hsigma Hprice.
  unfold main, main_with, io_bind, get_user_input.
  cbn [print stdin stdout].
  rewrite (loop_accepted _ _ _ lS S) by now apply py_float_accepted.
  cbn [stdin stdout].
  rewrite (loop_accepted _ _ _ lK K) by now apply py_float_accepted.
  cbn [stdin stdout].
  rewrite (loop_accepted _ _ _ lT T) by now apply py_float_accepted.
  cbn [stdin stdout].
  rewrite (loop_accepted _ _ _ lr r) by now apply py_float_accepted.
  cbn [stdin stdout].
  rewrite (loop_accepted _ _ _ lsigma sigma) by now apply py_float_accepted.
  unfold io_lift. rewrite Hprice. reflexivity.
Qed.
End MainProperties.

(** ** Claims on the shell *)

(** C7. Input validation.  [get_user_input] returns the value of the first
    line that parses to a number not below [min_val]; every line before
    it, which did not parse or parsed below [min_val], was answered by the
    prompt, an error message and a new prompt (when the lines run out
    first, the [EOFError] of [input] ends the loop), and whatever is
    returned is the value of such a first line, never one below
    [min_val].  In [main]
    the minimums are [0.0] for [S] and [K], [0.0001] for [T], [-0.5] for
    [r] and [0.0001] for [sigma]: nothing below them reaches the pricer
    and values at or above them are taken as entered. *)
Theorem get_user_input_validates :
  (forall value_type prompt min_val bad line v rest out,
      Forall (rejected value_type min_val) bad ->
      accepted value_type min_val line v ->
      get_user_input value_type prompt min_val (mkWorld (bad ++ line :: rest) out)
      = (Ok v,
         mkWorld rest
           (out ++ reprompts value_type prompt min_val bad ++ [Prompt prompt]))) /\
  (forall value_type prompt min_val bad out,
      Forall (rejected value_type min_val) bad ->
      get_user_input value_type prompt min_val (mkWorld bad out)
      = (Raise EOFError,
         mkWorld []
           (out ++ reprompts value_type prompt min_val bad ++ [Prompt prompt]))) /\
  (forall value_type prompt min_val w v w',
      get_user_input value_type prompt min_val w = (Ok v, w') ->
      ~ v < min_val /\
      exists bad line,
        stdin w = bad ++ line :: stdin w' /\
        Forall (rejected value_type min_val) bad /\
        value_type line = Ok v) /\
  (forall float w w' S K T r sigma,
      main_inputs float w = (Ok (S, K, T, r, sigma), w') ->
      0.0 <= S /\ 0.0 <= K /\ 0.0001 <= T /\ -0.5 <= r /\ 0.0001 <= sigma) /\
  (forall float lS lK lT lr lsigma rest out S K T r sigma,
      float lS = Some S -> float lK = Some K -> float lT = Some T ->
      float lr = Some r -> float lsigma = Some sigma ->
      0.0 <= S -> 0.0 <= K -> 0.0001 <= T -> -0.5 <= r -> 0.0001 <= sigma ->
      fst (main_inputs float
             (mkWorld (lS :: lK :: lT :: lr :: lsigma :: rest) out))
      = Ok (S, K, T, r, sigma)).
Proof.
  split; [| split; [| split; [| split]]].
  - intros value_type prompt min_val bad line v rest out Hbad Hline.
    unfold get_user_input. cbn [stdin stdout].
    now apply loop_first_accepted.
  - intros value_type prompt min_val bad out Hbad.
    unfold get_user_input. cbn [stdin stdout].
    now apply loop_exhausted.
  - intros value_type prompt min_val w v w' Hrun.
    destruct (loop_returns _ _ _ _ _ _ _ Hrun)
      as (bad & line & Hsplit & Hbad & [Hline Hmin] & _).
    split; [exact Hmin |]. now exists bad, line.
  - apply main_inputs_bounds.
  - intros float lS lK lT lr lsigma rest out S K T r sigma.
    intros HlS HlK HlT Hlr Hlsigma HS HK HT Hr Hsigma.
    now rewrite (main_inputs_accepts float lS lK lT lr lsigma rest out S K T r sigma).
Qed.

Lemma get_user_input_validates_witness :
  get_user_input (py_float float_of_digits) "T: " 10
    (mkWorld ["soon"; "5"; "12"; "7"]%string [])
  = (Ok 12,
     mkWorld ["7"]%string
       [Prompt "T: "; msg_invalid; Prompt "T: "; msg_at_least 10; Prompt "T: "]).
Proof.
  apply (proj1 get_user_input_validates
           (py_float float_of_digits) "T: "%string 10 ["soon"; "5"]%string "12"%string 12
           ["7"]%string []).
  - constructor; [left; reflexivity |].
    constructor; [right; exists 5; split; [reflexivity | lra] | constructor].
  - split; [reflexivity | lra].
Defined.

(** C8. A time of at least [0.0001], the minimum [main] enforces, never
    takes the degenerate branch of the pricer: every run of [main] is the
    run that prices with the standard branch alone.  The degenerate branch
    is still taken by a direct call with [T <= 0]. *)
Theorem degenerate_branch_unreachable_from_main :
  (forall S K T r sigma,
      0.0001 <= T ->
      ~ T <= 0 /\
      black_scholes_merton S K T r sigma = standard_prices S K T r sigma) /\
  (forall float w w' S K T r sigma,
      main_inputs float w = (Ok (S, K, T, r, sigma), w') -> ~ T <= 0) /\
  (forall float w, main float w = main_with float standard_prices w) /\
  (black_scholes_merton 110 100 0 0.05 0.2 = Ok (intrinsic_values 110 100) /\
   standard_prices 110 100 0 0.05 0.2 = Raise ZeroDivisionError).
Proof.
  split; [| split; [| split; [| split]]].
  - intros S K T r sigma HT. split; [lra |].
    apply black_scholes_merton_standard. lra.
  - intros float w w' S K T r sigma Hrun.
    destruct (main_inputs_bounds float _ _ _ _ _ _ _ Hrun) as (_ & _ & HT & _).
    lra.
  - apply main_standard_only.
  - apply black_scholes_merton_degenerate. lra.
  - unfold standard_prices.
    rewrite py_div_ok by lra. cbn [result_bind].
    rewrite math_log_ok by lra. cbn [result_bind].
    rewrite math_sqrt_ok by lra. cbn [result_bind].
    rewrite sqrt_0. replace (0.2 * 0) with 0 by ring.
    rewrite py_div_zero. reflexivity.
Qed.

Lemma degenerate_branch_unreachable_from_main_witness :
  ~ 0.0001 <= 0 /\
  black_scholes_merton 100 100 0.0001 0.05 0.2
  = standard_prices 100 100 0.0001 0.05 0.2.
Proof.
  apply (proj1 degenerate_branch_unreachable_from_main 100 100 0.0001 0.05 0.2).
  lra.
Defined.

(** C9. The shell accepts a spot of [0] (its minimum is [0.0] and only
    values below the minimum are turned down), and for a spot of [0], a
    positive strike and a positive time the pricer returns no pair:
    [math.log] raises its domain error.  So [main] ends in that error on
    input the shell accepted. *)
Theorem zero_spot_accepted_then_domain_error :
  (forall float line rest out,
      float line = Some 0 ->
      get_user_input (py_float float) "Current Stock Price (S): $" 0.0
        (mkWorld (line :: rest) out)
      = (Ok 0, mkWorld rest (out ++ [Prompt "Current Stock Price (S): $"]))) /\
  (forall K T r sigma,
      0 < K -> 0 < T -> black_scholes_merton 0 K T r sigma = Raise ValueError) /\
  (forall float lS lK lT lr lsigma rest out K T r sigma,
      float lS = Some 0 -> float lK = Some K -> float lT = Some T ->
      float lr = Some r -> float lsigma = Some sigma ->
      0 < K -> 0.0001 <= T -> -0.5 <= r -> 0.0001 <= sigma ->
      fst (main float (mkWorld (lS :: lK :: lT :: lr :: lsigma :: rest) out))
      = Raise ValueError).
Proof.
  assert (Hraise : forall K T r sigma,
             0 < K -> 0 < T -> black_scholes_merton 0 K T r sigma = Raise ValueError).
  { intros K T r sigma HK HT.
    rewrite black_scholes_merton_standard by exact HT.
    unfold standard_prices.
    rewrite py_div_ok by lra. cbn [result_bind].
    rewrite math_log_domain; [reflexivity |].
    unfold Rdiv. rewrite Rmult_0_l. lra. }
  split; [| split].
  - intros float line rest out Hline.
    unfold get_user_input. cbn [stdin stdout].
    apply loop_accepted, py_float_accepted; [exact Hline | lra].
  - exact Hraise.
  - intros float lS lK lT lr lsigma rest out K T r sigma.
    intros HlS HlK HlT Hlr Hlsigma HK HT Hr Hsigma.
    apply (main_raises float lS lK lT lr lsigma rest out 0 K T r sigma);
      try assumption; try lra.
    apply Hraise; lra.
Qed.

Lemma zero_spot_accepted_then_domain_error_witness :
  fst (main float_of_digits (mkWorld ["0"; "100"; "1"; "0"; "1"]%string []))
  = Raise ValueError.
Proof.
  apply (proj2 (proj2 zero_spot_accepted_then_domain_error)
           float_of_digits "0"%string "100"%string "1"%string "0"%string "1"%string
           [] [] 100 1 0 1);
    try reflexivity; lra.
Defined.

(** ** The closed formulas over the reals, continued *)

Lemma unit_call_pos v a : 0 < v -> 0 < unit_call v a.
Proof.
  intros Hv.
  apply Rle_lt_trans with (unit_call v (a - 1)); [now apply unit_call_nonneg |].
  apply (deriv_pos_strict_incr (unit_call v)
           (fun a => exp a * norm_cdf (/ v * a + v / 2))).
  - intro x. apply unit_call_deriv. lra.
  - intro x. apply Rmult_lt_0_compat; [apply exp_pos | apply norm_cdf_pos].
  - lra.
Qed.

Lemma call_formula_pos S K T r sigma :
  0 < S -> 0 < K -> 0 < T -> 0 < sigma -> 0 < call_formula S K T r sigma.
Proof.
  intros HS HK HT Hsigma.
  pose proof (total_volatility_pos T sigma HT Hsigma) as Hv.
  rewrite call_by_strike by assumption.
  apply Rmult_lt_0_compat; [| now apply unit_call_pos].
  apply Rmult_lt_0_compat; [lra | apply exp_pos].
Qed.

Lemma put_formula_pos S K T r sigma :
  0 < S -> 0 < K -> 0 < T -> 0 < sigma -> 0 < put_formula S K T r sigma.
Proof.
  intros HS HK HT Hsigma.
  pose proof (total_volatility_pos T sigma HT Hsigma) as Hv.
  rewrite put_by_spot by assumption.
  apply Rmult_lt_0_compat; [lra | now apply unit_call_pos].
Qed.

(** The formulas within the no-arbitrage bounds. *)
Lemma formulas_within_bounds S K T r sigma :
  0 < S -> 0 < K -> 0 < T -> 0 < sigma ->
  0 < call_formula S K T r sigma < S /\
  0 < put_formula S K T r sigma < K * exp (- r * T).
Proof.
  intros HS HK HT Hsigma.
  pose proof (call_formula_pos S K T r sigma HS HK HT Hsigma) as Hc.
  pose proof (put_formula_pos S K T r sigma HS HK HT Hsigma) as Hp.
  assert (Hd : 0 < K * exp (- r * T))
    by (apply Rmult_lt_0_compat; [lra | apply exp_pos]).
  assert (Hcs : call_formula S K T r sigma < S).
  { unfold call_formula.
    pose proof (norm_cdf_lt_1 (d1_formula S K T r sigma)).
    pose proof (norm_cdf_pos (d2_formula S K T r sigma)).
    nra. }
  pose proof (formula_parity S K T r sigma). lra.
Qed.

(** X2. A strike of [0] passes the validation of the shell too, and for a
    positive time the pricer then raises [ZeroDivisionError] at [S / K]. *)
Theorem zero_strike_accepted_then_division_error :
  (forall float line rest out,
      float line = Some 0 ->
      get_user_input (py_float float) "Option Strike Price (K): $" 0.0
        (mkWorld (line :: rest) out)
      = (Ok 0, mkWorld rest (out ++ [Prompt "Option Strike Price (K): $"]))) /\
  (forall S T r sigma,
      0 < T -> black_scholes_merton S 0 T r sigma = Raise ZeroDivisionError).
Proof.
  split.
  - intros float line rest out Hline.
    unfold get_user_input. cbn [stdin stdout].
    apply loop_accepted, py_float_accepted; [exact Hline | lra].
  - intros S T r sigma HT.
    rewrite black_scholes_merton_standard by exact HT.
    unfold standard_prices. now rewrite py_div_zero.
Qed.

Lemma zero_strike_accepted_then_division_error_witness :
  black_scholes_merton 100 0 1 0.05 0.2 = Raise ZeroDivisionError.
Proof.
  apply (proj2 zero_strike_accepted_then_division_error 100 1 0.05 0.2). lra.
Defined.

(** ** Sensitivity of the formulas to the volatility, over the reals *)

Lemma deriv_comp_fun (f f' g : R -> R) (x l : R) :
  derivable_pt_lim g x l -> (forall y, derivable_pt_lim f y (f' y)) ->
  derivable_pt_lim (fun u => f (g u)) x (f' (g x) * l).
Proof.
  intros Hg Hf. apply (derivable_pt_lim_comp g f x l (f' (g x)) Hg), Hf.
Qed.

(** [d1] and [d2] as functions of the total volatility. *)
Lemma moneyness_ratio_deriv a c v :
  v <> 0 ->
  derivable_pt_lim (fun u => / u * a + c * u) v (- a / (v * v) + c).
Proof.
  intros Hv.
  pose proof (derivable_pt_lim_plus _ _ v _ _
                (derivable_pt_lim_div (fct_cte a) id v 0 1
                   (derivable_pt_lim_const a v) (derivable_pt_lim_id v) Hv)
                (derivable_pt_lim_scal id c v 1 (derivable_pt_lim_id v))) as H.
  apply (derivable_pt_lim_ext _ (fun u => / u * a + c * u)) in H.
  - apply (deriv_value _ _ _ _ H). unfold fct_cte, id, Rsqr. field. exact Hv.
  - intro z. unfold plus_fct, div_fct, mult_real_fct, fct_cte, id, Rdiv. ring.
Qed.

Lemma unit_call_deriv_vol a v :
  v <> 0 ->
  derivable_pt_lim (fun u => unit_call u a) v (norm_pdf (/ v * a + - (v / 2))).
Proof.
  intros Hv.
  pose proof (deriv_comp_fun norm_cdf norm_pdf _ v _
                (moneyness_ratio_deriv a (/ 2) v Hv) norm_cdf_deriv) as H1.
  pose proof (deriv_comp_fun norm_cdf norm_pdf _ v _
                (moneyness_ratio_deriv a (- / 2) v Hv) norm_cdf_deriv) as H2.
  pose proof (derivable_pt_lim_minus _ _ v _ _
                (derivable_pt_lim_scal _ (exp a) v _ H1) H2) as H.
  cbv beta in H.
  apply (derivable_pt_lim_ext _ (fun u => unit_call u a)) in H.
  - apply (deriv_value _ _ _ _ H).
    replace (/ v * a + / 2 * v) with (/ v * a + v / 2) by (unfold Rdiv; ring).
    replace (/ v * a + - / 2 * v) with (/ v * a + - (v / 2)) by (unfold Rdiv; ring).
    unfold norm_pdf. rewrite <- (gauss_shift v a Hv), norm_mass.
    pose proof gauss_half_mass_pos. field. split; [lra | exact Hv].
  - intro z. unfold minus_fct, mult_real_fct, unit_call.
    replace (/ z * a + / 2 * z) with (/ z * a + z / 2) by (unfold Rdiv; ring).
    replace (/ z * a + - / 2 * z) with (/ z * a + - (z / 2)) by (unfold Rdiv; ring).
    reflexivity.
Qed.

(** A normalised call grows with the total volatility. *)
Lemma unit_call_incr_vol a v1 v2 :
  0 < v1 -> v1 <= v2 -> unit_call v1 a <= unit_call v2 a.
Proof.
  intros Hv1 [Hlt | ->]; [| lra].
  destruct (MVT_cor2 (fun u => unit_call u a)
              (fun u => norm_pdf (/ u * a + - (u / 2))) v1 v2 Hlt)
    as [c [Hc Hcb]].
  - intros c Hc. apply unit_call_deriv_vol. lra.
  - pose proof (norm_pdf_pos (/ c * a + - (c / 2))). nra.
Qed.

Lemma unit_put_incr_vol a v1 v2 :
  0 < v1 -> v1 <= v2 -> unit_put v1 a <= unit_put v2 a.
Proof.
  intros Hv1 Hv. unfold unit_put.
  pose proof (unit_call_incr_vol a v1 v2 Hv1 Hv). lra.
Qed.

(** ** The pricer on every double *)

(** X3. The pricer validates nothing itself.  On doubles, for a time that
    is not [<= 0]: a strike equal to [0] raises [ZeroDivisionError]; else
    a rounded quotient [S / K] that is [<= 0] (a spot of [0], opposite
    signs, or an underflow of the quotient) raises [ValueError]; else an
    exception of [math.log] or of the power leaves the pricer; else a
    rounded product [sigma * sqrt T] equal to [0] (a volatility of [0], or
    an underflow) raises [ZeroDivisionError]; else an exception of
    [math.exp] leaves the pricer.  The signs of the spot, the strike and
    the volatility are tested nowhere. *)
Theorem pricer_outcome (lib : Library) (S K T r sigma : PrimFloat.float) :
  (T <=? 0)%float = false ->
  ((K =? 0)%float = true ->
   black_scholes_merton64 lib S K T r sigma = Raise ZeroDivisionError) /\
  ((K =? 0)%float = false -> (S / K <=? 0)%float = true ->
   black_scholes_merton64 lib S K T r sigma = Raise ValueError) /\
  ((K =? 0)%float = false -> (S / K <=? 0)%float = false ->
   forall e, libm_log lib (S / K)%float = Raise e ->
   black_scholes_merton64 lib S K T r sigma = Raise e) /\
  ((K =? 0)%float = false -> (S / K <=? 0)%float = false ->
   forall ln_q, libm_log lib (S / K)%float = Ok ln_q ->
   (forall e, libm_pow lib sigma 2%float = Raise e ->
    black_scholes_merton64 lib S K T r sigma = Raise e) /\
   (forall sq, libm_pow lib sigma 2%float = Ok sq ->
    ((sigma * PrimFloat.sqrt T =? 0)%float = true ->
     black_scholes_merton64 lib S K T r sigma = Raise ZeroDivisionError) /\
    ((sigma * PrimFloat.sqrt T =? 0)%float = false ->
     forall e, libm_exp lib (- r * T)%float = Raise e ->
     black_scholes_merton64 lib S K T r sigma = Raise e))).
Proof.
  intros HT. rewrite black_scholes_merton64_standard by exact HT.
  unfold standard_prices64, py_div64, math_log64.
  rewrite !math_sqrt64_ok by exact HT.
  split; [| split; [| split]].
  - intros HK. rewrite HK. reflexivity.
  - intros HK Hq. rewrite HK. cbn [result_bind]. rewrite Hq. reflexivity.
  - intros HK Hq e Hlog. rewrite HK. cbn [result_bind].
    rewrite Hq, Hlog. reflexivity.
  - intros HK Hq ln_q Hlog. rewrite HK. cbn [result_bind].
    rewrite Hq, Hlog. cbn [result_bind].
    split.
    + intros e Hpow. rewrite Hpow. reflexivity.
    + intros sq Hpow. rewrite Hpow. cbn [result_bind]. split.
      * intros Hden. rewrite Hden. reflexivity.
      * intros Hden e Hexp. rewrite Hden. cbn [result_bind].
        rewrite Hexp. reflexivity.
Qed.

Lemma pricer_outcome_witness :
  black_scholes_merton64 sample_library 100 0 1 0.05 0.2
  = Raise ZeroDivisionError /\
  black_scholes_merton64 sample_library (-100) 100 1 0.05 0.2
  = Raise ValueError /\
  black_scholes_merton64 sample_library 100 100 1e-300 0.05 1e-200
  = Raise ZeroDivisionError.
Proof.
  assert (H1 : (1 <=? 0)%float = false) by reflexivity.
  assert (H2 : (1e-300 <=? 0)%float = false) by reflexivity.
  split; [| split].
  - apply (proj1 (pricer_outcome sample_library 100 0 1 0.05 0.2 H1)).
    reflexivity.
  - apply (proj1 (proj2 (pricer_outcome sample_library (-100) 100 1 0.05 0.2 H1)));
      reflexivity.
  - pose proof (proj2 (proj2 (proj2
        (pricer_outcome sample_library 100 100 1e-300 0.05 1e-200 H2)))) as H.
    specialize (H eq_refl eq_refl (100 / 100 - 1)%float eq_refl).
    apply (proj1 (proj2 H (1e-200 * 1e-200)%float eq_refl)). reflexivity.
Defined.

(** X5. At or after expiry the returned pair is
    [(max (S - K) 0, max (K - S) 0)]: the side the tie [S = K] falls on
    cannot be seen in the result. *)
Theorem expired_prices_are_max (S K T r sigma : R) :
  T <= 0 ->
  black_scholes_merton S K T r sigma = Ok (Rmax (S - K) 0, Rmax (K - S) 0).
Proof.
  intros HT. rewrite black_scholes_merton_degenerate by exact HT.
  f_equal. unfold intrinsic_values, Rmax.
  destruct (Rgt_dec S K) as [H | H], (Rle_dec (S - K) 0), (Rle_dec (K - S) 0);
    unfold Rgt in *; f_equal; lra.
Qed.

Lemma expired_prices_are_max_witness :
  black_scholes_merton 100 100 0 0.05 0.2
  = Ok (Rmax (100 - 100) 0, Rmax (100 - 100) 0).
Proof. apply (expired_prices_are_max 100 100 0 0.05 0.2). lra. Defined.

(** ** Volatility, rate and time, over the reals *)

Lemma formulas_monotone_volatility S K T r sigma1 sigma2 :
  0 < S -> 0 < K -> 0 < T -> 0 < sigma1 -> sigma1 <= sigma2 ->
  call_formula S K T r sigma1 <= call_formula S K T r sigma2 /\
  put_formula S K T r sigma1 <= put_formula S K T r sigma2.
Proof.
  intros HS HK HT Hs1 Hs.
  assert (Hs2 : 0 < sigma2) by lra.
  pose proof (total_volatility_pos T sigma1 HT Hs1) as Hv1.
  assert (Hv : sigma1 * sqrt T <= sigma2 * sqrt T)
    by (apply Rmult_le_compat_r; [apply sqrt_pos | exact Hs]).
  assert (Hd : 0 <= K * exp (- r * T))
    by (apply Rmult_le_pos; [lra | left; apply exp_pos]).
  rewrite !call_by_strike, !put_by_strike by assumption.
  split; apply Rmult_le_compat_l; try exact Hd.
  - now apply unit_call_incr_vol.
  - now apply unit_put_incr_vol.
Qed.

Lemma formulas_monotone_rate S K T r1 r2 sigma :
  0 < S -> 0 < K -> 0 < T -> 0 < sigma -> r1 <= r2 ->
  call_formula S K T r1 sigma <= call_formula S K T r2 sigma /\
  put_formula S K T r2 sigma <= put_formula S K T r1 sigma.
Proof.
  intros HS HK HT Hsigma Hr.
  pose proof (total_volatility_pos T sigma HT Hsigma) as Hv.
  assert (Ha : - (ln (S / K) + r2 * T) <= - (ln (S / K) + r1 * T)).
  { apply Ropp_le_contravar, Rplus_le_compat_l, Rmult_le_compat_r; lra. }
  rewrite !call_by_spot, !put_by_spot by assumption.
  split; apply Rmult_le_compat_l; try lra.
  - apply unit_put_decr; [lra | exact Ha].
  - apply unit_call_incr; [lra | exact Ha].
Qed.

Lemma call_formula_monotone_time S K T1 T2 r sigma :
  0 < S -> 0 < K -> 0 < sigma -> 0 <= r -> 0 < T1 -> T1 <= T2 ->
  call_formula S K T1 r sigma <= call_formula S K T2 r sigma.
Proof.
  intros HS HK Hsigma Hr H1 HT.
  assert (H2 : 0 < T2) by lra.
  pose proof (total_volatility_pos T1 sigma H1 Hsigma) as Hv1.
  pose proof (total_volatility_pos T2 sigma H2 Hsigma) as Hv2.
  assert (Hv : sigma * sqrt T1 <= sigma * sqrt T2).
  { apply Rmult_le_compat_l; [lra | apply sqrt_le_1_alt; exact HT]. }
  assert (Ha : - (ln (S / K) + r * T2) <= - (ln (S / K) + r * T1)).
  { apply Ropp_le_contravar, Rplus_le_compat_l, Rmult_le_compat_l; lra. }
  rewrite !call_by_spot by assumption.
  apply Rmult_le_compat_l; [lra |].
  apply Rle_trans with (unit_put (sigma * sqrt T2) (- (ln (S / K) + r * T1))).
  - now apply unit_put_incr_vol.
  - apply unit_put_decr; [lra | exact Ha].
Qed.

(** Put-call duality of the formulas. *)
Lemma formulas_duality S K T r sigma :
  0 < S -> 0 < K -> 0 < T -> 0 < sigma ->
  put_formula S K T r sigma = exp (- r * T) * call_formula K S T (- r) sigma /\
  call_formula S K T r sigma = exp (- r * T) * put_formula K S T (- r) sigma.
Proof.
  intros HS HK HT Hsigma.
  pose proof (total_volatility_pos T sigma HT Hsigma) as Hv.
  assert (Hln : ln (K / S) + - r * T = - (ln (S / K) + r * T)).
  { replace (K / S) with (/ (S / K)) by (field; split; lra).
    rewrite ln_Rinv by now apply Rdiv_lt_0_compat. ring. }
  assert (Hexp : exp (- r * T) * exp (- - r * T) = 1).
  { rewrite <- exp_plus. replace (- r * T + - - r * T) with 0 by ring.
    apply exp_0. }
  split.
  - rewrite (put_by_spot S K T r sigma) by assumption.
    rewrite (call_by_strike K S T (- r) sigma) by assumption.
    rewrite Hln.
    transitivity (S * (exp (- r * T) * exp (- - r * T))
                  * unit_call (sigma * sqrt T) (- (ln (S / K) + r * T)));
      [rewrite Hexp | ]; ring.
  - rewrite (call_by_spot S K T r sigma) by assumption.
    rewrite (put_by_strike K S T (- r) sigma) by assumption.
    rewrite Hln.
    transitivity (S * (exp (- r * T) * exp (- - r * T))
                  * unit_put (sigma * sqrt T) (- (ln (S / K) + r * T)));
      [rewrite Hexp | ]; ring.
Qed.

(** ** The input loop on every input *)

Definition is_prompt (o : Output) : bool :=
  match o with
  | Prompt _ => true
  | _ => false
  end.

Section InputLoopFrame.
Variable value_type : string -> Result R.
Variable prompt : string.
Variable min_val : R.

(** What the loop may write. *)
Definition loop_output (o : Output) : Prop :=
  o = Prompt prompt \/ o = msg_at_least min_val \/ o = msg_invalid.

Lemma loop_frame lines out res w' :
  get_user_input_loop value_type prompt min_val lines out = (res, w') ->
  exists consumed appended,
    lines = consumed ++ stdin w' /\
    stdout w' = out ++ appended /\
    Forall loop_output appended.
Proof.
  revert out. induction lines as [| line rest IH]; intros out Hrun.
  - cbn [get_user_input_loop] in Hrun. injection Hrun as <- <-.
    exists [], [Prompt prompt]. repeat split.
    constructor; [now left | constructor].
  - assert (Hnext : forall msg,
               loop_output msg ->
               get_user_input_loop value_type prompt min_val rest
                 (out ++ [Prompt prompt; msg]) = (res, w') ->
               exists consumed appended,
                 line :: rest = consumed ++ stdin w' /\
                 stdout w' = out ++ appended /\
                 Forall loop_output appended).
    { intros msg Hmsg Hrest.
      destruct (IH _ Hrest) as (consumed & appended & Hsplit & Hout & Happ).
      exists (line :: consumed), ([Prompt prompt; msg] ++ appended).
      split; [now rewrite Hsplit |].
      split; [now rewrite Hout, <- app_assoc |].
      constructor; [now left |]. constructor; assumption. }
    assert (Hstop : forall x : Result R,
               (x, mkWorld rest (out ++ [Prompt prompt])) = (res, w') ->
               exists consumed appended,
                 line :: rest = consumed ++ stdin w' /\
                 stdout w' = out ++ appended /\
                 Forall loop_output appended).
    { intros x Heq. injection Heq as <- <-.
      exists [line], [Prompt prompt]. repeat split.
      constructor; [now left | constructor]. }
    cbn [get_user_input_loop] in Hrun.
    destruct (value_type line) as [x | e].
    + destruct (Rlt_dec x min_val).
      * apply (Hnext (msg_at_least min_val)); [right; now left | exact Hrun].
      * exact (Hstop _ Hrun).
    + destruct e; try exact (Hstop _ Hrun).
      apply (Hnext msg_invalid); [right; now right | exact Hrun].
Qed.

Lemma reprompts_prompts bad :
  List.length (filter is_prompt (reprompts value_type prompt min_val bad)) = List.length bad.
Proof.
  induction bad as [| line bad IH]; [reflexivity |].
  cbn [reprompts flat_map app filter is_prompt List.length].
  fold (reprompts value_type prompt min_val bad).
  unfold rejection_message.
  destruct (value_type line); cbn [msg_at_least msg_invalid is_prompt]; now rewrite IH.
Qed.

Lemma loop_propagates bad line rest out e :
  Forall (rejected value_type min_val) bad ->
  value_type line = Raise e -> e <> ValueError ->
  get_user_input_loop value_type prompt min_val (bad ++ line :: rest) out
  = (Raise e,
     mkWorld rest
       (out ++ reprompts value_type prompt min_val bad ++ [Prompt prompt])).
Proof.
  intros Hbad Hline He.
  rewrite loop_skips by exact Hbad.
  cbn [get_user_input_loop]. rewrite Hline, app_assoc.
  destruct e; (reflexivity || contradiction).
Qed.
End InputLoopFrame.

(** X10. [get_user_input] catches [ValueError] alone: any other exception
    of [value_type] leaves the function at once, after the prompt and
    with no error message, the line being read. *)
Theorem get_user_input_propagates
    (value_type : string -> Result R) (prompt : string) (min_val : R)
    (bad : list string) (line : string) (rest : list string)
    (out : list Output) (e : PyError) :
  Forall (rejected value_type min_val) bad ->
  value_type line = Raise e -> e <> ValueError ->
  get_user_input value_type prompt min_val (mkWorld (bad ++ line :: rest) out)
  = (Raise e,
     mkWorld rest
       (out ++ reprompts value_type prompt min_val bad ++ [Prompt prompt])).
Proof.
  intros Hbad Hline He. unfold get_user_input. cbn [stdin stdout].
  now apply loop_propagates.
Qed.

(** The reciprocal of a digit string, a [value_type] that divides. *)
Definition inverse_of_digits (s : string) : Result R :=
  (x <- py_float float_of_digits s ;; py_div 1 x)%result.

Lemma get_user_input_propagates_witness :
  get_user_input inverse_of_digits "rate: " 0
    (mkWorld ["x"; "0"; "4"]%string [])
  = (Raise ZeroDivisionError,
     mkWorld ["4"]%string [Prompt "rate: "; msg_invalid; Prompt "rate: "]).
Proof.
  apply (get_user_input_propagates inverse_of_digits "rate: "%string 0
           ["x"]%string "0"%string ["4"]%string [] ZeroDivisionError).
  - constructor; [left; reflexivity | constructor].
  - unfold inverse_of_digits. cbn [py_float float_of_digits digits_value
      nat_of_ascii option_map result_bind]. apply py_div_zero.
  - discriminate.
Defined.

(** X11. [get_user_input] reads lines from the front of the input only
    and only adds to the output; all it writes is its prompt and its two
    error messages.  When it returns a value it has read at least one
    line and written exactly one prompt for each line read. *)
Theorem get_user_input_frame
    (value_type : string -> Result R) (prompt : string) (min_val : R)
    (w w' : World) (res : Result R) :
  get_user_input value_type prompt min_val w = (res, w') ->
  exists consumed appended,
    stdin w = consumed ++ stdin w' /\
    stdout w' = stdout w ++ appended /\
    Forall (loop_output prompt min_val) appended /\
    (forall v, res = Ok v ->
       consumed <> [] /\
       List.length (filter is_prompt appended) = List.length consumed).
Proof.
  unfold get_user_input. intros Hrun.
  destruct res as [v | e].
  - destruct (loop_returns _ _ _ _ _ _ _ Hrun)
      as (bad & line & Hsplit & Hbad & Hacc & Hout).
    destruct (loop_frame _ _ _ _ _ _ _ Hrun)
      as (consumed & appended & Hsplit' & Hout' & Happ).
    exists consumed, appended. repeat split; try assumption.
    + intros ->. rewrite Hsplit in Hsplit'. cbn [app] in Hsplit'.
      apply (f_equal (@List.length string)) in Hsplit'.
      rewrite length_app in Hsplit'. cbn [List.length] in Hsplit'. lia.
    + assert (Happended : appended
                = reprompts value_type prompt min_val bad ++ [Prompt prompt]).
      { rewrite Hout in Hout'. now apply app_inv_head in Hout'. }
      assert (Hlen : List.length consumed = Datatypes.S (List.length bad)).
      { rewrite Hsplit in Hsplit'.
        apply (f_equal (@List.length string)) in Hsplit'.
        rewrite !length_app in Hsplit'. cbn [List.length] in Hsplit'. lia. }
      rewrite Happended, Hlen, filter_app, length_app, reprompts_prompts.
      cbn [filter is_prompt List.length]. lia.
  - destruct (loop_frame _ _ _ _ _ _ _ Hrun)
      as (consumed & appended & Hsplit & Hout & Happ).
    exists consumed, appended. repeat split; try assumption; discriminate.
Qed.

Lemma get_user_input_frame_witness :
  exists consumed appended,
    ["soon"; "5"; "12"; "7"]%string = consumed ++ ["7"]%string /\
    [Prompt "T: "; msg_invalid; Prompt "T: "; msg_at_least 10; Prompt "T: "]
    = [] ++ appended /\
    Forall (loop_output "T: " 10) appended /\
    (forall v, Ok 12 = Ok v ->
       consumed <> [] /\
       List.length (filter is_prompt appended) = List.length consumed).
Proof.
  apply (get_user_input_frame (py_float float_of_digits) "T: "%string 10
           (mkWorld ["soon"; "5"; "12"; "7"]%string [])
           (mkWorld ["7"]%string
              [Prompt "T: "; msg_invalid; Prompt "T: "; msg_at_least 10;
               Prompt "T: "])
           (Ok 12)).
  unfold get_user_input. cbn [stdin stdout].
  apply (loop_first_accepted (py_float float_of_digits) "T: "%string 10
           ["soon"; "5"]%string "12"%string 12 ["7"]%string []).
  - constructor; [left; reflexivity |].
    constructor; [right; exists 5; split; [reflexivity | lra] | constructor].
  - split; [reflexivity | lra].
Defined.

(** ** Every run of main *)

(** The two lines [main] writes first and the eleven lines of its report. *)
Definition header_lines : list Output :=
  [Text (newline ++ "--- Black-Scholes-Merton European Option Pricer ---");
   Text "Please enter the required parameters."].

Definition report_lines (S K T r sigma call_price put_price : R) : list Output :=
  [Text (newline ++ "--- Results ---");
   Text "Input Parameters:";
   Fixed "  Spot Price (S):      $" S 2 EmptyString;
   Fixed "  Strike Price (K):    $" K 2 EmptyString;
   Fixed "  Time (T):            " T 4 " years";
   Fixed "  Risk-Free Rate (r):  " r 4 EmptyString;
   Fixed "  Volatility (sigma):  " sigma 4 EmptyString;
   Text (str_repeat "-" 25);
   Fixed "European Call Price: $" call_price 4 EmptyString;
   Fixed "European Put Price:  $" put_price 4 EmptyString;
   Text (str_repeat "-" 25)].

Lemma main_report_run S K T r sigma call_price put_price w :
  main_report S K T r sigma call_price put_price w
  = (Ok tt,
     mkWorld (stdin w)
       (stdout w ++ report_lines S K T r sigma call_price put_price)).
Proof.
  unfold main_report, io_bind, print, report_lines. cbn [stdin stdout].
  now rewrite <- !app_assoc.
Qed.

Section MainRuns.
Variable float : string -> option R.

Lemma loop_raises_eof prompt min_val lines out e w' :
  get_user_input_loop (py_float float) prompt min_val lines out = (Raise e, w') ->
  e = EOFError /\ stdin w' = [].
Proof.
  revert out. induction lines as [| line rest IH]; intros out Hrun.
  - cbn [get_user_input_loop] in Hrun. injection Hrun as <- <-. now split.
  - cbn [get_user_input_loop] in Hrun. unfold py_float in Hrun at 1.
    destruct (float line) as [x |].
    + destruct (Rlt_dec x min_val); [now apply (IH _ Hrun) | discriminate Hrun].
    + now apply (IH _ Hrun).
Qed.

Lemma main_inputs_raise w e w1 :
  main_inputs float w = (Raise e, w1) -> e = EOFError /\ stdin w1 = [].
Proof.
  unfold main_inputs, io_bind, io_ret. intros Hrun.
  repeat match type of Hrun with
         | context [get_user_input ?vt ?p ?m ?w0] =>
             let E := fresh "E" in
             destruct (get_user_input vt p m w0) as [[? | ?] ?] eqn:E;
             [clear E
             | injection Hrun as <- <-; apply (loop_raises_eof _ _ _ _ _ _ E)]
         end.
  discriminate Hrun.
Qed.

Lemma main_with_after_inputs pricer w S K T r sigma w1 :
  main_inputs float (mkWorld (stdin w) (stdout w ++ header_lines))
  = (Ok (S, K, T, r, sigma), w1) ->
  main_with float pricer w
  = match pricer S K T r sigma with
    | Ok prices => main_report S K T r sigma (fst prices) (snd prices) w1
    | Raise e => (Raise e, w1)
    end.
Proof.
  unfold main_with, main_inputs, io_bind, io_ret, io_lift, print, header_lines.
  cbn [stdin stdout]. rewrite <- app_assoc. cbn [app]. intros Hrun.
  repeat match type of Hrun with
         | context [get_user_input ?vt ?p ?m ?w0] =>
             destruct (get_user_input vt p m w0) as [[? | ?] ?];
             [| discriminate Hrun]
         end.
  injection Hrun as <- <- <- <- <- <-.
  destruct (pricer _ _ _ _ _) as [[call_price put_price] | e]; reflexivity.
Qed.

Lemma main_with_inputs_raise pricer w e w1 :
  main_inputs float (mkWorld (stdin w) (stdout w ++ header_lines))
  = (Raise e, w1) ->
  main_with float pricer w = (Raise e, w1).
Proof.
  unfold main_with, main_inputs, io_bind, io_ret, io_lift, print, header_lines.
  cbn [stdin stdout]. rewrite <- app_assoc. cbn [app]. intros Hrun.
  repeat match type of Hrun with
         | context [get_user_input ?vt ?p ?m ?w0] =>
             destruct (get_user_input vt p m w0) as [[? | ?] ?];
             [| injection Hrun as <- <-; reflexivity]
         end.
  discriminate Hrun.
Qed.
End MainRuns.

(** X12. Every run of [main], whatever the pricing routine does.  After
    the two header lines the five values are read; if the lines run out,
    [main] ends in [EOFError] with the input used up, the pricer not
    called and no report written.  Otherwise the pricer is called once on the five values: an
    exception it raises ends [main] with no report line, and a pair it
    returns is followed by exactly the eleven lines of the report, with no
    further line read. *)
Theorem main_outcome (float : string -> option R)
    (pricer : R -> R -> R -> R -> R -> Result (R * R)) (w : World) :
  (forall S K T r sigma w1,
      main_inputs float (mkWorld (stdin w) (stdout w ++ header_lines))
      = (Ok (S, K, T, r, sigma), w1) ->
      (forall e, pricer S K T r sigma = Raise e ->
                 main_with float pricer w = (Raise e, w1)) /\
      (forall call_price put_price,
          pricer S K T r sigma = Ok (call_price, put_price) ->
          main_with float pricer w
          = (Ok tt,
             mkWorld (stdin w1)
               (stdout w1
                ++ report_lines S K T r sigma call_price put_price)))) /\
  (forall e w1,
      main_inputs float (mkWorld (stdin w) (stdout w ++ header_lines))
      = (Raise e, w1) ->
      e = EOFError /\ stdin w1 = [] /\
      main_with float pricer w = (Raise EOFError, w1)).
Proof.
  split.
  - intros S K T r sigma w1 Hin.
    rewrite (main_with_after_inputs float pricer w S K T r sigma w1 Hin).
    split.
    + intros e ->. reflexivity.
    + intros call_price put_price ->. cbn [fst snd]. apply main_report_run.
  - intros e w1 Hin.
    destruct (main_inputs_raise float _ _ _ Hin) as [-> Hempty].
    split; [reflexivity | split; [exact Hempty |]].
    now apply main_with_inputs_raise.
Qed.

Lemma main_outcome_witness :
  main float_of_digits (mkWorld ["0"; "100"; "1"; "0"; "1"]%string [])
  = (Raise ValueError,
     mkWorld []
       (([] ++ header_lines)
        ++ [Prompt "Current Stock Price (S): $";
            Prompt "Option Strike Price (K): $";
            Prompt "Time to Expiration (T, in years, e.g., 0.5): ";
            Prompt "Risk-Free Rate (r, decimal, e.g., 0.05 for 5%): ";
            Prompt "Volatility (sigma, decimal, e.g., 0.30 for 30%): "])).
Proof.
  pose (w := mkWorld ["0"; "100"; "1"; "0"; "1"]%string []).
  assert (Hin : main_inputs float_of_digits
                  (mkWorld (stdin w) (stdout w ++ header_lines))
                = (Ok (0, 100, 1, 0, 1),
                   mkWorld []
                     ((stdout w ++ header_lines)
                      ++ [Prompt "Current Stock Price (S): $";
                          Prompt "Option Strike Price (K): $";
                          Prompt "Time to Expiration (T, in years, e.g., 0.5): ";
                          Prompt "Risk-Free Rate (r, decimal, e.g., 0.05 for 5%): ";
                          Prompt "Volatility (sigma, decimal, e.g., 0.30 for 30%): "]))).
  { apply (main_inputs_accepts float_of_digits
             "0"%string "100"%string "1"%string "0"%string "1"%string []);
      try reflexivity; lra. }
  apply (proj1 (proj1 (main_outcome float_of_digits black_scholes_merton w)
                  _ _ _ _ _ _ Hin)).
  rewrite black_scholes_merton_standard by lra.
  unfold standard_prices. rewrite py_div_ok by lra. cbn [result_bind].
  rewrite math_log_domain; [reflexivity |].
  unfold Rdiv. rewrite Rmult_0_l. lra.
Defined.
